(** * Spotify 2023 dashboard: loader, filter chain and artist aggregates

    A shallow embedding of [spotify_dashboard_1.py].  A data frame is a list
    of rows in index order; a column that pandas may leave empty (NaN) is an
    [option]; a boolean mask is a [bool]-valued function on rows and the
    indexing [df[mask]] is [List.filter mask df]. *)

From Stdlib Require Import ZArith String Ascii List Lia.
From stdpp Require Import base decidable option list strings gmap.

Local Open Scope string_scope.
Local Open Scope Z_scope.

(** ** Rows *)

(** The result of [pd.to_datetime] on a year/month/day triple. *)
Definition date : Type := Z * Z * Z.

(** One record of the CSV file after [pd.read_csv] and the renaming of the
    columns (lines 87-102), which only touches the header: the fields below
    carry the renamed column names.  [streams] is still the text of the
    cell; the columns no modelled code reads are kept in [other_columns],
    because [drop_duplicates] compares them too. *)
Record raw_track := RawTrack {
  raw_track_name : string;
  raw_artist_name : option string;
  raw_released_year : Z;
  raw_released_month : Z;
  raw_released_day : Z;
  raw_streams : string;
  raw_bpm : Z;
  raw_key : option string;
  raw_mode : option string;
  raw_danceability : Z;
  raw_valence : Z;
  raw_energy : Z;
  raw_other_columns : list string
}.

(** One row of the table [load_data] returns. *)
Record track := Track {
  track_name : string;
  artist_name : option string;
  released_year : Z;
  released_month : Z;
  released_day : Z;
  streams : Z;
  bpm : Z;
  key : option string;
  mode : option string;
  danceability : Z;
  valence : Z;
  energy : Z;
  released_date : option date;
  other_columns : list string
}.


#[global] Instance raw_track_eq_dec : EqDecision raw_track.
Proof. solve_decision. Defined.

#[global] Instance track_eq_dec : EqDecision track.
Proof. solve_decision. Defined.

(** ** The sidebar selection (lines 127-166) *)

Module Sidebar.
(** The values the widgets hand to the script; the sliders return a pair
    [(low, high)], the select boxes the chosen option. *)
Record selection := Selection {
  selected_artists_count : nat;
  year_range : Z * Z;
  bpm_range : Z * Z;
  selected_key : string;
  selected_mode : string;
  danceability : Z * Z;
  energy : Z * Z;
  valence : Z * Z
}.
End Sidebar.

Abbreviation selection := Sidebar.selection.

(** The first option of both select boxes, which stands for no filter. *)
Definition Semua : string := "Semua".

(** ** The filter chain (lines 176-197) *)

(** [(col >= rng[0]) & (col <= rng[1])] *)
Definition between (x : Z) (rng : Z * Z) : bool :=
  (rng.1 <=? x) && (x <=? rng.2).

(** [col == value] on an object column: a NaN cell compares unequal to
    every string. *)
Definition cell_eqb (cell : option string) (value : string) : bool :=
  match cell with
  | Some v => String.eqb v value
  | None => false
  end.

Definition base_mask (s : selection) (r : track) : bool :=
  between (released_year r) (Sidebar.year_range s)
  && between (bpm r) (Sidebar.bpm_range s).

Definition advanced_mask (s : selection) (r : track) : bool :=
  between (danceability r) (Sidebar.danceability s)
  && between (energy r) (Sidebar.energy s)
  && between (valence r) (Sidebar.valence s).

Definition base_filter (s : selection) (df : list track) : list track :=
  List.filter (base_mask s) df.

(** [if selected_key != 'Semua': filtered_df = filtered_df[filtered_df['key'] == selected_key]] *)
Definition key_filter (s : selection) (df : list track) : list track :=
  if negb (String.eqb (Sidebar.selected_key s) Semua)
  then List.filter (fun r => cell_eqb (key r) (Sidebar.selected_key s)) df
  else df.

Definition mode_filter (s : selection) (df : list track) : list track :=
  if negb (String.eqb (Sidebar.selected_mode s) Semua)
  then List.filter (fun r => cell_eqb (mode r) (Sidebar.selected_mode s)) df
  else df.

Definition advanced_filter (s : selection) (df : list track) : list track :=
  List.filter (advanced_mask s) df.

Definition filtered_df (s : selection) (df : list track) : list track :=
  advanced_filter s (mode_filter s (key_filter s (base_filter s df))).

(** ** The constraint set, in the words of the specification

    Used only to state what the filter chain computes. *)

Module Spec.
(** A range constraint, inclusive on both bounds. *)
Definition in_range (x : Z) (rng : Z * Z) : Prop := rng.1 <= x <= rng.2.

(** A categorical constraint: skipped for the sentinel, an exact match
    otherwise. *)
Definition categorical (selected : string) (cell : option string) : Prop :=
  selected = Semua \/ cell = Some selected.

(** The conjunction of all active constraints. *)
Definition satisfies (s : selection) (r : track) : Prop :=
  in_range (released_year r) (Sidebar.year_range s)
  /\ in_range (bpm r) (Sidebar.bpm_range s)
  /\ categorical (Sidebar.selected_key s) (key r)
  /\ categorical (Sidebar.selected_mode s) (mode r)
  /\ in_range (danceability r) (Sidebar.danceability s)
  /\ in_range (energy r) (Sidebar.energy s)
  /\ in_range (valence r) (Sidebar.valence s).

#[global] Instance in_range_dec x rng : Decision (in_range x rng).
Proof. unfold in_range. apply _. Defined.

#[global] Instance categorical_dec sel cell : Decision (categorical sel cell).
Proof. unfold categorical. apply _. Defined.

(** The constraints other than the one on the key, and other than the one
    on the mode. *)
Definition satisfies_but_key (s : selection) (r : track) : Prop :=
  in_range (released_year r) (Sidebar.year_range s)
  /\ in_range (bpm r) (Sidebar.bpm_range s)
  /\ categorical (Sidebar.selected_mode s) (mode r)
  /\ in_range (danceability r) (Sidebar.danceability s)
  /\ in_range (energy r) (Sidebar.energy s)
  /\ in_range (valence r) (Sidebar.valence s).

Definition satisfies_but_mode (s : selection) (r : track) : Prop :=
  in_range (released_year r) (Sidebar.year_range s)
  /\ in_range (bpm r) (Sidebar.bpm_range s)
  /\ categorical (Sidebar.selected_key s) (key r)
  /\ in_range (danceability r) (Sidebar.danceability s)
  /\ in_range (energy r) (Sidebar.energy s)
  /\ in_range (valence r) (Sidebar.valence s).

#[global] Instance satisfies_dec s r : Decision (satisfies s r).
Proof. unfold satisfies. apply _. Defined.

#[global] Instance satisfies_but_key_dec s r : Decision (satisfies_but_key s r).
Proof. unfold satisfies_but_key. apply _. Defined.

#[global] Instance satisfies_but_mode_dec s r : Decision (satisfies_but_mode s r).
Proof. unfold satisfies_but_mode. apply _. Defined.
End Spec.

(** ** Series and the pandas primitives the aggregates use *)

(** A pandas [Series] with string labels: the pairs (label, value) in index
    order. *)
Definition series : Type := list (string * Z).

(** Arithmetic on [int64] columns wraps around. *)
Definition wrap64 (z : Z) : Z := (z + 2 ^ 63) mod 2 ^ 64 - 2 ^ 63.

(** The value at label [k] becomes [f] of the old value ([None] when the
    label is new, in which case it is appended): the hash-table pass of
    [value_counts] and [groupby], which sees the labels in the order of
    their first occurrence. *)
Fixpoint upsert (f : option Z -> Z) (k : string) (m : series) : series :=
  match m with
  | [] => [(k, f None)]
  | (k', v) :: m' =>
      if String.eqb k k' then (k', f (Some v)) :: m'
      else (k', v) :: upsert f k m'
  end.

Section Sorting.
Context {A : Type} (before : A -> A -> bool).

(** Insertion in front of the first element that [x] may precede. *)
Fixpoint insert_by (x : A) (l : list A) : list A :=
  match l with
  | [] => [x]
  | y :: l' => if before x y then x :: l else y :: insert_by x l'
  end.

(** A stable sort: elements that may precede each other keep their order. *)
Definition sort_by (l : list A) : list A := foldr insert_by [] l.
End Sorting.

Definition by_value_desc (x y : string * Z) : bool := y.2 <=? x.2.
Definition by_label (x y : string * Z) : bool := String.leb x.1 y.1.

(** One pass over the rows of a table: the row's label, unless it is NaN,
    has its value updated by [f]. *)
Definition tally_step {R : Type} (label : R -> option string)
    (f : R -> option Z -> Z) (m : series) (row : R) : series :=
  match label row with
  | Some k => upsert (f row) k m
  | None => m
  end.

Definition tally {R : Type} (label : R -> option string)
    (f : R -> option Z -> Z) (rows : list R) : series :=
  foldl (tally_step label f) [] rows.

(** [col.value_counts()]: NaN cells are skipped, the counts are sorted in
    descending order.  For equal counts pandas does not promise an order;
    the model keeps the order of first occurrence. *)
Definition value_counts (col : list (option string)) : series :=
  sort_by by_value_desc (tally id (fun _ old => default 0 old + 1) col).

(** [df.groupby(label)[value].sum()]: rows with a NaN label are skipped and
    the groups come out sorted by label. *)
Definition groupby_sum (rows : list (option string * Z)) : series :=
  sort_by by_label
    (tally fst (fun row old => wrap64 (default 0 old + row.2)) rows).

(** [s.nlargest(n)]: the first [n] entries in descending order of value,
    earlier entries first among equal values ([keep='first']). *)
Definition nlargest (n : nat) (s : series) : series :=
  take n (sort_by by_value_desc s).

(** [drop_duplicates()] keeps the first occurrence of every row. *)
Fixpoint drop_duplicates_from {A} `{EqDecision A}
    (seen : list A) (l : list A) : list A :=
  match l with
  | [] => []
  | x :: l' =>
      if decide (x ∈ seen) then drop_duplicates_from seen l'
      else x :: drop_duplicates_from (x :: seen) l'
  end.

Definition drop_duplicates {A} `{EqDecision A} (l : list A) : list A :=
  drop_duplicates_from [] l.

(** [col.nunique()]: the number of distinct cells that are not NaN. *)
Definition nunique (col : list (option string)) : nat :=
  length (drop_duplicates (omap id col)).

(** [s.split(pat)] for a pattern without regular-expression operators that
    is not empty: [cur] is the piece being read, [skip] the number of
    characters of a matched separator still to pass over. *)
Fixpoint split_go (pat : string) (skip : nat) (cur : string) (s : string)
    : list string :=
  match s with
  | EmptyString => [cur]
  | String c s' =>
      match skip with
      | S k => split_go pat k cur s'
      | O =>
          if String.prefix pat s
          then cur :: split_go pat (String.length pat - 1) EmptyString s'
          else split_go pat 0 (cur ++ String c EmptyString)%string s'
      end
  end.

Definition str_split (pat s : string) : list string :=
  split_go pat 0 EmptyString s.

(** ** Key metrics (lines 215-217) *)

Definition total_tracks (view : list track) : nat := length view.

Definition total_artists (view : list track) : nat :=
  nunique (artist_name <$> view).

Definition total_streams (view : list track) : Z :=
  foldl (fun acc r => wrap64 (acc + streams r)) 0 view.

(** ** Top artists (lines 271-287) *)

Definition set_artist_name (r : track) (a : option string) : track :=
  {| track_name := track_name r; artist_name := a;
     released_year := released_year r; released_month := released_month r;
     released_day := released_day r; streams := streams r; bpm := bpm r;
     key := key r; mode := mode r; danceability := danceability r;
     valence := valence r; energy := energy r;
     released_date := released_date r; other_columns := other_columns r |}.

(** The separator the script splits artist strings on. *)
Definition artist_separator : string := ",_".

(** [.str.split(',_')] followed by [explode] on an artist column that
    holds strings (dtype [object]): one row per piece, in place; a NaN cell
    stays one NaN row.  The check the [.str] accessor makes before is in
    [explode_artists] below. *)
Definition df_artists (view : list track) : list track :=
  r ← view;
  match artist_name r with
  | Some a => set_artist_name r ∘ Some <$> str_split artist_separator a
  | None => [r]
  end.

Definition top_artists_count (n : nat) (view : list track) : series :=
  nlargest n (value_counts (artist_name <$> df_artists view)).

Definition top_artists_streams (n : nat) (view : list track) : series :=
  nlargest n
    (groupby_sum ((fun r => (artist_name r, streams r)) <$> df_artists view)).

(** The dtype pandas gives the [artist_name] column when it reads the
    file, which every view of the table keeps: [object] for a column that
    holds strings, [float64] for a column without a value in any record,
    whose cells are all NaN. *)
Inductive column_dtype := dtype_object | dtype_float64.

(** Lines 271-273 with the check of the [.str] accessor: it accepts a column
    of dtype [object] and raises [AttributeError], here [None], on a
    [float64] column. *)
Definition explode_artists (dt : column_dtype) (view : list track)
    : option (list track) :=
  match dt with
  | dtype_object => Some (df_artists view)
  | dtype_float64 => None
  end.

(** Lines 271-287: the ranking by number of songs and the ranking by
    streams, or the exception of line 272. *)
Definition artist_rankings (dt : column_dtype) (n : nat) (view : list track)
    : option (series * series) :=
  exploded ← explode_artists dt view;
  Some (nlargest n (value_counts (artist_name <$> exploded)),
        nlargest n
          (groupby_sum ((fun r => (artist_name r, streams r)) <$> exploded))).

(** ** The page (lines 208-294)

    What the script puts on the page after the filters, in order.  After
    [st.stop()] nothing more is run.  For a view with rows [page] lists the
    metrics and the two rankings as they come out when no step of the tabs
    raises; the exception of line 272 is in [artist_rankings], and the word
    cloud of lines 258-259, which can raise as well, is not modelled.  The
    charts of the other tabs (means per group, correlations) are
    floating-point computations and are not modelled; in the script they
    all come after the guard as well.  A metric carries the number before
    it is formatted for display. *)

Inductive element :=
| warning (text : string)
| metric (label : string) (value : Z)
| bar_chart (data : series).

Definition no_match_warning : string :=
  "Tidak ada data yang cocok dengan filter yang Anda pilih. Silakan sesuaikan kembali filter Anda.".

(** [filtered_df.empty] *)
Definition empty (df : list track) : bool :=
  match df with [] => true | _ => false end.

Definition page (s : selection) (df : list track) : list element :=
  let view := filtered_df s df in
  if empty view then [warning no_match_warning]
  else
    [ metric "Total Lagu" (Z.of_nat (total_tracks view));
      metric "Artis Unik" (Z.of_nat (total_artists view));
      metric "Total Streaming" (total_streams view);
      bar_chart (top_artists_count (Sidebar.selected_artists_count s) view);
      bar_chart (top_artists_streams (Sidebar.selected_artists_count s) view) ].

(** The elements that show an aggregate of the view. *)
Definition is_aggregate (e : element) : bool :=
  match e with
  | warning _ => false
  | metric _ _ | bar_chart _ => true
  end.

(** ** The loader (lines 77-118) *)

(** What a call of [load_data] comes to: the table it returns, the message
    of [st.error] when the file is missing, or an exception. *)
Inductive load_result :=
| Loaded (df : list track)
| DataUnavailable (error : string)
| Raised.

(** The text of [st.error] when the file is missing. *)
Definition not_found_error (path : string) : string :=
  ("File tidak ditemukan di path: " ++ path
   ++ ". Pastikan 'spotify-2023.csv' berada di direktori yang sama.")%string.

Section Loader.
(** The pandas conversions are taken as they are: [float64] is the type of
    the numbers [pd.to_numeric] produces; [to_numeric] is
    [pd.to_numeric(_, errors='coerce')] on one cell, [None] standing for the
    NaN of a cell that is not numeric; [astype_int64] is
    [astype('int64')] on one number, [None] when it raises (a number that is
    not finite); [to_datetime] is [pd.to_datetime(_, errors='coerce')] on
    the joined year, month and day, [None] standing for NaT. *)
Context {float64 : Type}.
Variable to_numeric : string -> option float64.
Variable astype_int64 : float64 -> option Z.
Variable to_datetime : Z -> Z -> Z -> option date.

(** The rows whose [streams] cell is numeric. *)
Definition has_numeric_streams (raw : raw_track) : bool :=
  match to_numeric (raw_streams raw) with
  | Some _ => true
  | None => false
  end.

(** Lines 105-106: the [streams] column is converted and the rows left with
    NaN are dropped. *)
Definition coerce_streams (raws : list raw_track)
    : list (raw_track * float64) :=
  omap (fun raw => pair raw <$> to_numeric (raw_streams raw)) raws.

(** Lines 107-110 on one row: the integer conversion of [streams] and the
    [released_date] column. *)
Definition typed_row (row : raw_track * float64) : option track :=
  let raw := row.1 in
  n ← astype_int64 row.2;
  Some {| track_name := raw_track_name raw;
          artist_name := raw_artist_name raw;
          released_year := raw_released_year raw;
          released_month := raw_released_month raw;
          released_day := raw_released_day raw;
          streams := n;
          bpm := raw_bpm raw;
          key := raw_key raw;
          mode := raw_mode raw;
          danceability := raw_danceability raw;
          valence := raw_valence raw;
          energy := raw_energy raw;
          released_date :=
            to_datetime (raw_released_year raw) (raw_released_month raw)
              (raw_released_day raw);
          other_columns := raw_other_columns raw |}.

(** The cleaning steps in the order of the script; the [decade] column of
    line 116 is the function [decade] above.  [None] is an exception: the
    one of [astype] at line 107, or the [ValueError] of [pd.to_datetime] at
    line 110, which does not accept a table without rows. *)
Definition normalize (raws : list raw_track) : option (list track) :=
  typed ← mapM typed_row (coerce_streams raws);
  match typed with
  | [] => None
  | _ => Some (drop_duplicates typed)
  end.

(** [read_csv path] is the parsed file, [None] when there is no such file
    ([FileNotFoundError]). *)
Definition load_data (read_csv : string -> option (list raw_track))
    (path : string) : load_result :=
  match read_csv path with
  | None => DataUnavailable (not_found_error path)
  | Some raws =>
      match normalize raws with
      | Some df => Loaded df
      | None => Raised
      end
  end.
End Loader.

(** ** An instance of the conversions for running the loader

    [int_literal] reads the cells that are integer literals, an optional
    minus sign and decimal digits; on those below [2^53] in magnitude, which
    [float64] and [int64] both hold exactly, [pd.to_numeric] and
    [astype('int64')] give the same integer.  Every other cell is treated as
    not numeric.  The instance serves to run the loader on examples; the
    theorems on the loader hold for every choice of the conversions. *)

Definition digit_value (c : ascii) : option Z :=
  let n := Z.of_N (N_of_ascii c) in
  if (48 <=? n) && (n <=? 57) then Some (n - 48) else None.

Fixpoint digits_value (acc : Z) (s : string) : option Z :=
  match s with
  | EmptyString => Some acc
  | String c s' => d ← digit_value c; digits_value (10 * acc + d) s'
  end.

Definition int_literal (s : string) : option Z :=
  match s with
  | EmptyString => None
  | String "-" EmptyString => None
  | String "-" s' => Z.opp <$> digits_value 0 s'
  | _ => digits_value 0 s
  end.

(** The integer conversion of a number that is an integer already. *)
Definition int_astype (z : Z) : option Z := Some z.

Definition leap_year (y : Z) : bool :=
  ((y mod 4 =? 0) && negb (y mod 100 =? 0)) || (y mod 400 =? 0).

Definition days_in_month (y m : Z) : Z :=
  if m =? 2 then (if leap_year y then 29 else 28)
  else if (m =? 4) || (m =? 6) || (m =? 9) || (m =? 11) then 30
  else 31.

(** The order of dates: by year, then month, then day. *)
Definition date_leb (a b : date) : bool :=
  let '(y1, m1, d1) := a in
  let '(y2, m2, d2) := b in
  (y1 <? y2)
  || ((y1 =? y2) && ((m1 <? m2) || ((m1 =? m2) && (d1 <=? d2)))).

(** A calendar date that a pandas timestamp of nanosecond resolution can
    hold at midnight: from 1677-09-22 to 2262-04-11. *)
Definition calendar_date (y m d : Z) : option date :=
  if (1 <=? m) && (m <=? 12) && (1 <=? d) && (d <=? days_in_month y m)
     && date_leb (1677, 9, 22) (y, m, d) && date_leb (y, m, d) (2262, 4, 11)
  then Some (y, m, d) else None.

Definition load_csv : (string -> option (list raw_track)) -> string -> load_result :=
  load_data int_literal int_astype calendar_date.

(** ** Definitions used to state the properties *)

(** The mask of the whole filter chain on one row. *)
Definition categorical_mask (selected : string) (cell : option string) : bool :=
  if negb (String.eqb selected Semua) then cell_eqb cell selected else true.

Definition row_mask (s : selection) (r : track) : bool :=
  base_mask s r
  && categorical_mask (Sidebar.selected_key s) (key r)
  && categorical_mask (Sidebar.selected_mode s) (mode r)
  && advanced_mask s r.

Module Ranges.
(** The five range constraints of a selection. *)
Inductive range_field := Year | Bpm | Danceability | Energy | Valence.

#[global] Instance range_field_eq_dec : EqDecision range_field.
Proof. solve_decision. Defined.

Definition get_range (f : range_field) (s : selection) : Z * Z :=
  match f with
  | Year => Sidebar.year_range s
  | Bpm => Sidebar.bpm_range s
  | Danceability => Sidebar.danceability s
  | Energy => Sidebar.energy s
  | Valence => Sidebar.valence s
  end.

(** The selection that differs from [s] in the range [f] only. *)
Definition set_range (f : range_field) (rng : Z * Z) (s : selection)
    : selection :=
  let pick g := if decide (f = g) then rng else get_range g s in
  {| Sidebar.selected_artists_count := Sidebar.selected_artists_count s;
     Sidebar.year_range := pick Year;
     Sidebar.bpm_range := pick Bpm;
     Sidebar.selected_key := Sidebar.selected_key s;
     Sidebar.selected_mode := Sidebar.selected_mode s;
     Sidebar.danceability := pick Danceability;
     Sidebar.energy := pick Energy;
     Sidebar.valence := pick Valence |}.

(** Every value of [inner] is a value of [outer]. *)
Definition contains (outer inner : Z * Z) : Prop :=
  forall x, Spec.in_range x inner -> Spec.in_range x outer.
End Ranges.

(** The scenario of the specification: five rows over the years 2020-2022
    and the tempos 90, 120 and 150, one of which passes both ranges. *)
Module Scenario.
Definition row (year tempo : Z) (k : option string) : track :=
  {| track_name := "track"; artist_name := Some "artist";
     released_year := year; released_month := 1; released_day := 1;
     streams := 1000; bpm := tempo; key := k; mode := Some "Major";
     danceability := 50; valence := 50; energy := 50;
     released_date := Some (year, 1, 1); other_columns := [] |}.

Definition table : list track :=
  [ row 2020 90 (Some "A"); row 2020 150 None; row 2021 120 None;
    row 2021 90 (Some "B"); row 2022 90 (Some "A") ].

Definition chosen : selection :=
  {| Sidebar.selected_artists_count := 15;
     Sidebar.year_range := (2021, 2022);
     Sidebar.bpm_range := (100, 200);
     Sidebar.selected_key := Semua;
     Sidebar.selected_mode := Semua;
     Sidebar.danceability := (0, 100);
     Sidebar.energy := (0, 100);
     Sidebar.valence := (0, 100) |}.

Definition with_key (k : string) (s : selection) : selection :=
  {| Sidebar.selected_artists_count := Sidebar.selected_artists_count s;
     Sidebar.year_range := Sidebar.year_range s;
     Sidebar.bpm_range := Sidebar.bpm_range s;
     Sidebar.selected_key := k;
     Sidebar.selected_mode := Sidebar.selected_mode s;
     Sidebar.danceability := Sidebar.danceability s;
     Sidebar.energy := Sidebar.energy s;
     Sidebar.valence := Sidebar.valence s |}.
End Scenario.

(** The labels of the exploded artist column: the groups both rankings
    are taken from. *)
Definition artist_groups (view : list track) : gset string :=
  list_to_set (omap artist_name (df_artists view)).

(** The artist strings of a view as they stand. *)
Definition artist_strings (view : list track) : gset string :=
  list_to_set (omap artist_name view).

Module Artists.
(** The individual artist names of a view, in the words of the
    specification: every artist string is split at the separator [sep] into
    its component names. *)
Definition individual (sep : string) (view : list track) : gset string :=
  list_to_set (a ← omap artist_name view; str_split sep a).

(** A one-track row by the given artist string. *)
Definition song (a : string) (n : Z) : track :=
  {| track_name := "track"; artist_name := Some a;
     released_year := 2023; released_month := 1; released_day := 1;
     streams := n; bpm := 120; key := None; mode := Some "Major";
     danceability := 50; valence := 50; energy := 50;
     released_date := Some (2023, 1, 1); other_columns := [] |}.
End Artists.

(** Example files. *)
Module Files.
Definition path : string := "spotify-2023.csv".

Definition line (name streams_cell : string) : raw_track :=
  {| raw_track_name := name; raw_artist_name := Some "artist";
     raw_released_year := 2023; raw_released_month := 7;
     raw_released_day := 14; raw_streams := streams_cell;
     raw_bpm := 120; raw_key := Some "B"; raw_mode := Some "Major";
     raw_danceability := 80; raw_valence := 89; raw_energy := 83;
     raw_other_columns := [] |}.

Definition loaded (name : string) (n : Z) : track :=
  {| track_name := name; artist_name := Some "artist";
     released_year := 2023; released_month := 7; released_day := 14;
     streams := n; bpm := 120; key := Some "B"; mode := Some "Major";
     danceability := 80; valence := 89; energy := 83;
     released_date := Some (2023, 7, 14); other_columns := [] |}.

(** A directory that holds one file, [path], with the given records. *)
Definition disk (raws : list raw_track) (p : string) : option (list raw_track) :=
  if String.eqb p path then Some raws else None.

Definition with_text_in_streams : list raw_track :=
  [ line "first" "141381703"; line "second" "N/A"; line "third" "133716286" ].

Definition with_negative_streams : list raw_track :=
  [ line "first" "-5" ].
End Files.

(** * The rest of the script *)

From stdpp Require sorting.

Abbreviation StronglySorted := Stdlib.Sorting.Sorted.StronglySorted.

(** ** Grouping with labels of any type

    The counting pass of [value_counts] and [groupby] for a column whose
    labels are compared with [eqb]; [upsert] and [tally] above are the
    instance for strings. *)

Section Grouping.
Context {K : Type} (eqb : K -> K -> bool).

Fixpoint upsert_with (f : option Z -> Z) (k : K) (m : list (K * Z))
    : list (K * Z) :=
  match m with
  | [] => [(k, f None)]
  | (k', v) :: m' =>
      if eqb k k' then (k', f (Some v)) :: m'
      else (k', v) :: upsert_with f k m'
  end.

Definition tally_step_with {R : Type} (label : R -> option K)
    (f : R -> option Z -> Z) (m : list (K * Z)) (row : R) : list (K * Z) :=
  match label row with
  | Some k => upsert_with (f row) k m
  | None => m
  end.

Definition tally_with {R : Type} (label : R -> option K)
    (f : R -> option Z -> Z) (rows : list R) : list (K * Z) :=
  foldl (tally_step_with label f) [] rows.

(** [s.get(k)]: the value at the first entry labelled [k]. *)
Fixpoint assoc (k : K) (m : list (K * Z)) : option Z :=
  match m with
  | [] => None
  | (k', v) :: m' => if eqb k k' then Some v else assoc k m'
  end.

(** The rows of a table that carry the label [k]. *)
Definition labelled {R : Type} (label : R -> option K) (k : K) (row : R)
    : bool :=
  match label row with
  | Some k' => eqb k' k
  | None => false
  end.
End Grouping.

(** The value a group ends with: the updates of its rows, in order. *)
Definition group_value {R : Type} (f : R -> option Z -> Z) (rows : list R)
    : option Z :=
  foldl (fun acc row => Some (f row acc)) None rows.

(** The sum of a list of integers. *)
Definition Zsum (l : list Z) : Z := foldr Z.add 0 l.

(** The rows of the exploded table credited to the artist [k]. *)
Definition credited (k : string) (view : list track) : list track :=
  filter (fun r => artist_name r = Some k) (df_artists view).

(** ** Strings *)

(** [pat in s]: [pat] occurs somewhere in [s]. *)
Fixpoint occurs (pat s : string) : bool :=
  String.prefix pat s
  || match s with
     | EmptyString => false
     | String _ s' => occurs pat s'
     end.

(** [s[n:]] *)
Fixpoint drop_chars (n : nat) (s : string) : string :=
  match n, s with
  | S n', String _ s' => drop_chars n' s'
  | _, _ => s
  end.

(** ** The widgets of the sidebar (lines 133-166) *)

Module Widgets.
(** [int(col.min())] and [int(col.max())] on an integer column; on an empty
    column pandas gives NaN and [int] raises, which is [None]. *)
Definition column_min (col : list Z) : option Z :=
  match col with
  | [] => None
  | x :: col' => Some (foldl Z.min x col')
  end.

Definition column_max (col : list Z) : option Z :=
  match col with
  | [] => None
  | x :: col' => Some (foldl Z.max x col')
  end.

(** The selection the script hands to the widgets as their initial
    values: the [value] arguments of the sliders and [index=0] of the
    select boxes.  What the widget library makes of them is not modelled. *)
Definition initial_selection (df : list track) : option selection :=
  min_year ← column_min (released_year <$> df);
  max_year ← column_max (released_year <$> df);
  min_bpm ← column_min (bpm <$> df);
  max_bpm ← column_max (bpm <$> df);
  Some {| Sidebar.selected_artists_count := 15;
          Sidebar.year_range := (min_year, max_year);
          Sidebar.bpm_range := (min_bpm, max_bpm);
          Sidebar.selected_key := Semua;
          Sidebar.selected_mode := Semua;
          Sidebar.danceability := (0, 100);
          Sidebar.energy := (0, 100);
          Sidebar.valence := (0, 100) |}.

(** [sorted(df[col].dropna().unique().tolist())] *)
Definition options (col : list (option string)) : list string :=
  sort_by String.leb (drop_duplicates (omap id col)).

Definition key_options (df : list track) : list string := options (key <$> df).
Definition all_keys (df : list track) : list string := Semua :: key_options df.

Definition mode_options (df : list track) : list string :=
  options (mode <$> df).
Definition all_modes (df : list track) : list string :=
  Semua :: mode_options df.

(** The selection after the user picks [k] in the key select box. *)
Definition pick_key (k : string) (s : selection) : selection :=
  {| Sidebar.selected_artists_count := Sidebar.selected_artists_count s;
     Sidebar.year_range := Sidebar.year_range s;
     Sidebar.bpm_range := Sidebar.bpm_range s;
     Sidebar.selected_key := k;
     Sidebar.selected_mode := Sidebar.selected_mode s;
     Sidebar.danceability := Sidebar.danceability s;
     Sidebar.energy := Sidebar.energy s;
     Sidebar.valence := Sidebar.valence s |}.
End Widgets.

(** The three percentages of a row that the advanced sliders range over
    lie between 0 and 100. *)
Definition percentages_in_range (r : track) : Prop :=
  0 <= danceability r <= 100 /\ 0 <= energy r <= 100 /\ 0 <= valence r <= 100.

#[global] Instance percentages_in_range_dec r : Decision (percentages_in_range r).
Proof. unfold percentages_in_range. apply _. Defined.

(** ** Column names (lines 87-102)

    The file is read as latin-1, so a character of a header is one byte. *)

Module Columns.
(** [c.lower()] on one latin-1 character: the letters A-Z and the accented
    capitals from U+00C0 to U+00DE, the multiplication sign U+00D7
    excepted, move 32 places up. *)
Definition lower_char (c : ascii) : ascii :=
  let n := N_of_ascii c in
  if ((65 <=? n) && (n <=? 90))%N
     || ((192 <=? n) && (n <=? 222) && negb (n =? 215))%N
  then ascii_of_N (n + 32) else c.

Definition space_to_underscore (c : ascii) : ascii :=
  if Ascii.eqb c " " then "_"%char else c.

Fixpoint map_chars (f : ascii -> ascii) (s : string) : string :=
  match s with
  | EmptyString => EmptyString
  | String c s' => String (f c) (map_chars f s')
  end.

(** [col.lower().replace(' ', '_')] *)
Definition normalize_column (col : string) : string :=
  map_chars space_to_underscore (map_chars lower_char col).

Definition rename_map : list (string * string) :=
  [ ("artist(s)_name", "artist_name");
    ("danceability_%", "danceability");
    ("valence_%", "valence");
    ("energy_%", "energy");
    ("acousticness_%", "acousticness");
    ("instrumentalness_%", "instrumentalness");
    ("liveness_%", "liveness");
    ("speechiness_%", "speechiness") ].

Fixpoint lookup_name (m : list (string * string)) (col : string)
    : option string :=
  match m with
  | [] => None
  | (old, new) :: m' => if String.eqb col old then Some new else lookup_name m' col
  end.

(** [df.rename(columns=rename_map)] on one name: the names that are not
    keys of the map stay. *)
Definition rename (col : string) : string :=
  default col (lookup_name rename_map col).

(** The header of the table after lines 87 and 102. *)
Definition clean_columns (cols : list string) : list string :=
  rename <$> (normalize_column <$> cols).

(** The characters of a string. *)
Fixpoint chars (s : string) : list ascii :=
  match s with
  | EmptyString => []
  | String c s' => c :: chars s'
  end.

Definition is_upper_ascii (c : ascii) : bool :=
  let n := N_of_ascii c in ((65 <=? n) && (n <=? 90))%N.
End Columns.

(** ** The most streamed songs (lines 300 and 311) *)

Definition by_streams_desc (x y : track) : bool := streams y <=? streams x.

(** [df.nlargest(n, 'streams')], and
    [df.sort_values(by='streams', ascending=False).head(n)]: the first [n]
    rows in descending order of streams.  Among rows of equal streams
    [nlargest] keeps the order of the table, as the model does;
    [sort_values] does not promise an order. *)
Definition largest_by_streams (n : nat) (view : list track) : list track :=
  take n (sort_by by_streams_desc view).

Definition top_tracks (view : list track) : list track :=
  largest_by_streams 10 view.

Definition scatter_tracks (view : list track) : list track :=
  largest_by_streams 100 view.

(** ** Songs per year and per month (lines 382 and 390) *)

Definition count_up (_ : Z) (old : option Z) : Z := default 0 old + 1.

(** [col.value_counts()] on an integer column. *)
Definition int_value_counts (col : list Z) : list (Z * Z) :=
  sort_by (fun x y => y.2 <=? x.2) (tally_with Z.eqb Some count_up col).

(** [s.sort_index()] *)
Definition sort_index (s : list (Z * Z)) : list (Z * Z) :=
  sort_by (fun x y => x.1 <=? y.1) s.

Definition songs_per_year (view : list track) : list (Z * Z) :=
  sort_index (int_value_counts (released_year <$> view)).

Definition songs_per_month (view : list track) : list (Z * Z) :=
  sort_index (int_value_counts (released_month <$> view)).

(** ** Keys and modes (lines 325-333) *)

(** The label of a row in [groupby(['key', 'mode'])]: a row without key or
    without mode is in no group. *)
Definition key_mode_label (r : track) : option (string * string) :=
  k ← key r; m ← mode r; Some (k, m).

Definition pair_eqb (x y : string * string) : bool :=
  String.eqb x.1 y.1 && String.eqb x.2 y.2.

(** The order of tuples: by the first component, then by the second. *)
Definition pair_leb (x y : string * string) : bool :=
  if String.eqb x.1 y.1 then String.leb x.2 y.2 else String.leb x.1 y.1.

(** [filtered_df.groupby(['key', 'mode']).size()]: the number of rows of
    every pair that occurs, the pairs in ascending order. *)
Definition key_mode_df (view : list track) : list (string * string * Z) :=
  sort_by (fun a b => pair_leb a.1 b.1)
    (tally_with pair_eqb key_mode_label (fun _ old => default 0 old + 1) view).

Definition key_mode_warning : string :=
  "Tidak ada data untuk Kunci & Mode pada filter ini.".

(** The sunburst chart of the pairs, or the warning when there is none. *)
Definition key_mode_chart (view : list track)
    : list (string * string * Z) + string :=
  match key_mode_df view with
  | [] => inr key_mode_warning
  | data => inl data
  end.

(** ** The row of metrics (lines 208-226)

    The guard on the empty view and, for a view with rows, the three
    metrics, which are computed and shown before the tabs; a metric
    carries the number before it is formatted for display. *)
Definition metrics_row (s : selection) (df : list track) : list element :=
  let view := filtered_df s df in
  if empty view then [warning no_match_warning]
  else
    [ metric "Total Lagu" (Z.of_nat (total_tracks view));
      metric "Artis Unik" (Z.of_nat (total_artists view));
      metric "Total Streaming" (total_streams view) ].

(** * Properties *)

(** ** Masks and filters *)

Lemma between_in_range x rng : between x rng = true <-> Spec.in_range x rng.
Proof.
  unfold between, Spec.in_range.
  rewrite andb_true_iff, !Z.leb_le. tauto.
Qed.

Lemma cell_eqb_Some cell value : cell_eqb cell value = true <-> cell = Some value.
Proof.
  destruct cell as [v|]; simpl.
  - rewrite String.eqb_eq. split; congruence.
  - split; discriminate.
Qed.

Lemma categorical_mask_spec selected cell :
  categorical_mask selected cell = true <-> Spec.categorical selected cell.
Proof.
  unfold categorical_mask, Spec.categorical.
  destruct (String.eqb selected Semua) eqn:E; simpl.
  - apply String.eqb_eq in E. tauto.
  - apply String.eqb_neq in E. rewrite cell_eqb_Some. tauto.
Qed.

Lemma categorical_mask_Semua cell : categorical_mask Semua cell = true.
Proof. reflexivity. Qed.

Section Filters.
Context {A : Type}.
Implicit Types (f g : A -> bool) (l : list A).

Lemma filter_andb f g l :
  List.filter g (List.filter f l) = List.filter (fun x => f x && g x) l.
Proof.
  induction l as [|x l IH]; simpl; [done|].
  destruct (f x); simpl; [|done].
  destruct (g x); by rewrite IH.
Qed.

Lemma filter_true l : List.filter (fun _ => true) l = l.
Proof. induction l as [|x l IH]; simpl; by rewrite ?IH. Qed.

Lemma filter_ext_mask f g l :
  (forall x, f x = g x) -> List.filter f l = List.filter g l.
Proof.
  intros E. induction l as [|x l IH]; simpl; [done|].
  by rewrite E, IH.
Qed.

(** A mask that decides [P] selects the rows that satisfy [P]. *)
Lemma filter_mask_decide f (P : A -> Prop) `{!forall x, Decision (P x)} l :
  (forall x, f x = true <-> P x) -> List.filter f l = filter P l.
Proof.
  intros E. induction l as [|x l IH]; simpl; [done|].
  rewrite filter_cons. destruct (decide (P x)) as [p|np].
  - apply E in p. by rewrite p, IH.
  - destruct (f x) eqn:F; [by apply E in F|done].
Qed.

(** A weaker mask keeps at least as many rows. *)
Lemma filter_length_mono f g l :
  (forall x, f x = true -> g x = true) ->
  (length (List.filter f l) <= length (List.filter g l))%nat.
Proof.
  intros E. induction l as [|x l IH]; simpl; [done|].
  destruct (f x) eqn:F.
  - rewrite (E x F). simpl. lia.
  - destruct (g x); simpl; lia.
Qed.
End Filters.

(** The chain of four indexing steps is one pass with the conjunction of
    the masks. *)
Lemma filtered_df_row_mask s df : filtered_df s df = List.filter (row_mask s) df.
Proof.
  unfold filtered_df, advanced_filter, mode_filter, key_filter, base_filter.
  assert (step : forall sel (col : track -> option string) t,
    (if negb (String.eqb sel Semua)
     then List.filter (fun r => cell_eqb (col r) sel) t else t)
    = List.filter (fun r => categorical_mask sel (col r)) t).
  { intros sel col t. unfold categorical_mask.
    destruct (String.eqb sel Semua); simpl; [by rewrite filter_true|done]. }
  rewrite !step, !filter_andb. apply filter_ext_mask.
  intros r. unfold row_mask. by rewrite !andb_assoc.
Qed.

Lemma row_mask_satisfies s r : row_mask s r = true <-> Spec.satisfies s r.
Proof.
  unfold row_mask, base_mask, advanced_mask, Spec.satisfies.
  rewrite !andb_true_iff, !between_in_range, !categorical_mask_spec. tauto.
Qed.

Lemma filtered_df_filter s df : filtered_df s df = filter (Spec.satisfies s) df.
Proof.
  rewrite filtered_df_row_mask.
  apply filter_mask_decide, row_mask_satisfies.
Qed.


(** ** The filtered view *)

(** C3: the filtered view is the base table restricted, in order, to the
    rows that satisfy the conjunction of the active constraints, every range
    being inclusive on both bounds; on the five-row scenario with
    year in [2021, 2022] and tempo in [100, 200] it has exactly one row. *)
Theorem filtered_df_exactly_satisfying :
  (forall s df, filtered_df s df = filter (Spec.satisfies s) df)
  /\ (forall s df r, r ∈ filtered_df s df <-> r ∈ df /\ Spec.satisfies s r)
  /\ filtered_df Scenario.chosen Scenario.table = [Scenario.row 2021 120 None]
  /\ length (filtered_df Scenario.chosen Scenario.table) = 1%nat.
Proof.
  split; [exact filtered_df_filter|]. split; [|split; reflexivity].
  intros s df r. rewrite filtered_df_filter, list_elem_of_filter. tauto.
Qed.

(** C4: with the sentinel as the selected key the key constraint is
    skipped: the view holds every row that passes the other constraints,
    whatever its key, also when the key is absent; likewise for the mode. *)
Theorem sentinel_skips_categorical s df :
  (Sidebar.selected_key s = Semua ->
     filtered_df s df = filter (Spec.satisfies_but_key s) df
     /\ forall r, r ∈ df -> key r = None ->
                  Spec.satisfies_but_key s r -> r ∈ filtered_df s df)
  /\ (Sidebar.selected_mode s = Semua ->
     filtered_df s df = filter (Spec.satisfies_but_mode s) df
     /\ forall r, r ∈ df -> mode r = None ->
                  Spec.satisfies_but_mode s r -> r ∈ filtered_df s df).
Proof.
  rewrite filtered_df_row_mask. split; intros E.
  - assert (M : forall r, row_mask s r = true <-> Spec.satisfies_but_key s r).
    { intros r. unfold row_mask, base_mask, advanced_mask, Spec.satisfies_but_key.
      rewrite E, categorical_mask_Semua.
      rewrite !andb_true_iff, !between_in_range, !categorical_mask_spec. tauto. }
    rewrite (filter_mask_decide _ _ _ M). split; [done|].
    intros r Hr _ Hs. by apply list_elem_of_filter.
  - assert (M : forall r, row_mask s r = true <-> Spec.satisfies_but_mode s r).
    { intros r. unfold row_mask, base_mask, advanced_mask, Spec.satisfies_but_mode.
      rewrite E, categorical_mask_Semua.
      rewrite !andb_true_iff, !between_in_range, !categorical_mask_spec. tauto. }
    rewrite (filter_mask_decide _ _ _ M). split; [done|].
    intros r Hr _ Hs. by apply list_elem_of_filter.
Qed.

Lemma sentinel_skips_categorical_witness :
  filtered_df Scenario.chosen Scenario.table
    = filter (Spec.satisfies_but_key Scenario.chosen) Scenario.table
  /\ Scenario.row 2021 120 None ∈ filtered_df Scenario.chosen Scenario.table.
Proof.
  destruct (proj1 (sentinel_skips_categorical Scenario.chosen Scenario.table)
              eq_refl) as [E K].
  split; [exact E|].
  apply K; [|reflexivity|].
  - unfold Scenario.table. set_solver.
  - unfold Spec.satisfies_but_key, Spec.in_range, Spec.categorical; simpl.
    repeat split; try lia. by left.
Defined.

(** C10: with a key other than the sentinel selected, a row without a key
    is not in the view, and every row of the view carries the selected key;
    likewise for the mode. *)
Theorem exact_match_excludes_null s df r :
  (Sidebar.selected_key s <> Semua ->
     (key r = None -> r ∉ filtered_df s df)
     /\ (r ∈ filtered_df s df -> key r = Some (Sidebar.selected_key s)))
  /\ (Sidebar.selected_mode s <> Semua ->
     (mode r = None -> r ∉ filtered_df s df)
     /\ (r ∈ filtered_df s df -> mode r = Some (Sidebar.selected_mode s))).
Proof.
  rewrite filtered_df_filter.
  split; intros N.
  - assert (M : r ∈ filter (Spec.satisfies s) df ->
                key r = Some (Sidebar.selected_key s)).
    { rewrite list_elem_of_filter. intros [(_ & _ & [K|K] & _) _]; done. }
    split; [|done]. intros K In. apply M in In. congruence.
  - assert (M : r ∈ filter (Spec.satisfies s) df ->
                mode r = Some (Sidebar.selected_mode s)).
    { rewrite list_elem_of_filter. intros [(_ & _ & _ & [K|K] & _) _]; done. }
    split; [|done]. intros K In. apply M in In. congruence.
Qed.

Lemma exact_match_excludes_null_witness :
  Scenario.row 2021 120 None
    ∉ filtered_df (Scenario.with_key "A" Scenario.chosen) Scenario.table.
Proof.
  assert (K : Sidebar.selected_key (Scenario.with_key "A" Scenario.chosen)
              <> Semua).
  { simpl. unfold Semua. congruence. }
  exact (proj1 (proj1 (exact_match_excludes_null
                         (Scenario.with_key "A" Scenario.chosen)
                         Scenario.table (Scenario.row 2021 120 None)) K)
           eq_refl).
Defined.

(** ** Monotonicity in the ranges *)

(** Replacing one range by a range that contains it keeps every row. *)
Lemma satisfies_widen s f wide r :
  Ranges.contains wide (Ranges.get_range f s) ->
  Spec.satisfies s r -> Spec.satisfies (Ranges.set_range f wide s) r.
Proof.
  unfold Ranges.contains, Spec.satisfies.
  intros W (Y & B & K & M & D & E & V).
  destruct f; simpl in *; repeat (split; [solve [auto]|]); auto.
Qed.

(** Replacing one range by a range it contains adds no row. *)
Lemma satisfies_narrow s f narrow r :
  Ranges.contains (Ranges.get_range f s) narrow ->
  Spec.satisfies (Ranges.set_range f narrow s) r -> Spec.satisfies s r.
Proof.
  unfold Ranges.contains, Spec.satisfies.
  intros W (Y & B & K & M & D & E & V).
  destruct f; simpl in *; repeat (split; [solve [auto]|]); auto.
Qed.

Lemma filtered_df_length_mono s1 s2 df :
  (forall r, Spec.satisfies s1 r -> Spec.satisfies s2 r) ->
  (length (filtered_df s1 df) <= length (filtered_df s2 df))%nat.
Proof.
  intros E. rewrite !filtered_df_row_mask. apply filter_length_mono.
  intros r. rewrite !row_mask_satisfies. apply E.
Qed.

(** C9: for two selections that differ in one range only, the view under
    the wider range has at least as many rows: widening a range never
    decreases the number of rows and narrowing it never increases it. *)
Theorem range_monotone s f wide narrow df :
  Ranges.contains wide (Ranges.get_range f s) ->
  Ranges.contains (Ranges.get_range f s) narrow ->
  (length (filtered_df (Ranges.set_range f narrow s) df)
     <= length (filtered_df s df)
   /\ length (filtered_df s df)
     <= length (filtered_df (Ranges.set_range f wide s) df))%nat.
Proof.
  intros W N. split; apply filtered_df_length_mono; intros r.
  - by apply satisfies_narrow.
  - by apply satisfies_widen.
Qed.

Lemma range_monotone_witness :
  let narrowed := Ranges.set_range Ranges.Year (2022, 2022) Scenario.chosen in
  let widened := Ranges.set_range Ranges.Year (2020, 2022) Scenario.chosen in
  (length (filtered_df narrowed Scenario.table)
     <= length (filtered_df Scenario.chosen Scenario.table)
   /\ length (filtered_df Scenario.chosen Scenario.table)
     <= length (filtered_df widened Scenario.table))%nat.
Proof.
  apply (range_monotone Scenario.chosen Ranges.Year (2020, 2022) (2022, 2022)
           Scenario.table).
  - intros x. unfold Spec.in_range. simpl. lia.
  - intros x. unfold Spec.in_range. simpl. lia.
Defined.

(** ** Distinct values *)

Section Distinct.
Context {A : Type} `{EqDecision A}.
Implicit Types (l seen : list A).

Lemma elem_of_drop_duplicates_from seen l x :
  x ∈ drop_duplicates_from seen l <-> x ∈ l /\ x ∉ seen.
Proof.
  revert seen. induction l as [|y l IH]; intros seen; simpl.
  - rewrite elem_of_nil. tauto.
  - destruct (decide (y ∈ seen)) as [S|S].
    + rewrite IH, elem_of_cons. split; [tauto|].
      intros [[->|?] ?]; tauto.
    + rewrite !elem_of_cons, IH, not_elem_of_cons.
      split; [intros [->|?]; tauto|].
      destruct (decide (x = y)); tauto.
Qed.

Lemma NoDup_drop_duplicates_from seen l : NoDup (drop_duplicates_from seen l).
Proof.
  revert seen. induction l as [|y l IH]; intros seen; simpl.
  - constructor.
  - destruct (decide (y ∈ seen)); [apply IH|].
    apply NoDup_cons. split; [|apply IH].
    rewrite elem_of_drop_duplicates_from, not_elem_of_cons. tauto.
Qed.

(** Only the members of [seen] matter, not their order. *)
Lemma drop_duplicates_from_ext seen1 seen2 l :
  (forall x, x ∈ seen1 <-> x ∈ seen2) ->
  drop_duplicates_from seen1 l = drop_duplicates_from seen2 l.
Proof.
  revert seen1 seen2. induction l as [|y l IH]; intros seen1 seen2 E; simpl.
  - done.
  - destruct (decide (y ∈ seen1)) as [S|S], (decide (y ∈ seen2)) as [T|T];
      try (apply E in S; tauto); try (apply E in T; tauto).
    + by apply IH.
    + f_equal. apply IH. intros x. rewrite !elem_of_cons, E. tauto.
Qed.

Lemma elem_of_drop_duplicates l x : x ∈ drop_duplicates l <-> x ∈ l.
Proof.
  unfold drop_duplicates. rewrite elem_of_drop_duplicates_from.
  rewrite elem_of_nil. tauto.
Qed.

Lemma NoDup_drop_duplicates l : NoDup (drop_duplicates l).
Proof. apply NoDup_drop_duplicates_from. Qed.
End Distinct.

(** The number of rows [drop_duplicates] keeps is the number of distinct
    values. *)
Lemma length_drop_duplicates (l : list string) :
  length (drop_duplicates l) = size (list_to_set (C:=gset string) l).
Proof.
  rewrite <- (size_list_to_set (C:=gset string) (drop_duplicates l))
    by apply NoDup_drop_duplicates.
  f_equal. apply set_eq. intros x.
  by rewrite !elem_of_list_to_set, elem_of_drop_duplicates.
Qed.

Lemma nunique_size col : nunique col = size (list_to_set (C:=gset string) (omap id col)).
Proof. apply length_drop_duplicates. Qed.

(** ** Sorting *)

Section SortLength.
Context {A : Type} (before : A -> A -> bool).

Lemma insert_by_length x l : length (insert_by before x l) = S (length l).
Proof.
  induction l as [|y l IH]; simpl; [done|].
  destruct (before x y); simpl; by rewrite ?IH.
Qed.

Lemma sort_by_length l : length (sort_by before l) = length l.
Proof.
  induction l as [|x l IH]; simpl; [done|].
  by rewrite insert_by_length, IH.
Qed.

Lemma insert_by_Permutation x l : insert_by before x l ≡ₚ x :: l.
Proof.
  induction l as [|y l IH]; simpl; [done|].
  destruct (before x y); [done|].
  rewrite IH. apply Permutation_swap.
Qed.

Lemma sort_by_Permutation l : sort_by before l ≡ₚ l.
Proof.
  induction l as [|x l IH]; simpl; [done|].
  by rewrite insert_by_Permutation, IH.
Qed.
End SortLength.

(** ** Counting and summing per label *)

Lemma upsert_labels f k m :
  (upsert f k m).*1 = if decide (k ∈ m.*1) then m.*1 else (m.*1 ++ [k])%list.
Proof.
  induction m as [|[k' v] m IH].
  - case_decide as E; [|done]. by inversion E.
  - cbn [upsert]. destruct (String.eqb k k') eqn:E.
    + apply String.eqb_eq in E as ->. clear IH. rewrite !fmap_cons. cbn [fst].
      case_decide as N; [done|]. exfalso. apply N. left.
    + apply String.eqb_neq in E. rewrite !fmap_cons, IH. clear IH. cbn [fst].
      destruct (decide (k ∈ m.*1)) as [I|I],
               (decide (k ∈ k' :: m.*1)) as [J|J]; try done.
      * exfalso. apply J. by right.
      * exfalso. apply elem_of_cons in J as [J|J]; [by apply E|by apply I].
Qed.

Section Tally.
Context {R : Type} (label : R -> option string) (f : R -> option Z -> Z).

(** The labels of the table come out in the order of their first
    occurrence, each once. *)
Lemma tally_labels m rows :
  (foldl (tally_step label f) m rows).*1
  = (m.*1 ++ drop_duplicates_from m.*1 (omap label rows))%list.
Proof.
  revert m. induction rows as [|row rows IH]; intros m.
  - simpl. by rewrite app_nil_r.
  - cbn [foldl]. rewrite IH. unfold tally_step.
    change (omap label (row :: rows))
      with (match label row with
            | Some k => k :: omap label rows
            | None => omap label rows
            end).
    destruct (label row) as [k|]; [|done].
    rewrite upsert_labels. cbn [drop_duplicates_from].
    destruct (decide (k ∈ m.*1)) as [I|I]; [done|].
    rewrite <- app_assoc. simpl. do 2 f_equal.
    apply drop_duplicates_from_ext. intros x.
    rewrite elem_of_app, !elem_of_cons, elem_of_nil. tauto.
Qed.

Lemma tally_length rows :
  length (tally label f rows)
  = size (list_to_set (C:=gset string) (omap label rows)).
Proof.
  unfold tally. rewrite <- (length_fmap fst), tally_labels. simpl.
  apply length_drop_duplicates.
Qed.
End Tally.

Lemma value_counts_length col :
  length (value_counts col) = size (list_to_set (C:=gset string) (omap id col)).
Proof. unfold value_counts. by rewrite sort_by_length, tally_length. Qed.

Lemma groupby_sum_length rows :
  length (groupby_sum rows)
  = size (list_to_set (C:=gset string) (omap fst rows)).
Proof. unfold groupby_sum. by rewrite sort_by_length, tally_length. Qed.

Lemma nlargest_length n s : length (nlargest n s) = min n (length s).
Proof. unfold nlargest. by rewrite length_take, sort_by_length. Qed.

Lemma omap_fmap {A B C} (g : A -> B) (h : B -> option C) (l : list A) :
  omap h (g <$> l) = omap (h ∘ g) l.
Proof.
  induction l as [|x l IH]; [done|].
  rewrite fmap_cons. cbn [omap list_omap compose]. fold (omap h (g <$> l)).
  fold (omap (h ∘ g) l). by rewrite IH.
Qed.

(** ** Top artists *)

Lemma artist_rankings_object n view :
  artist_rankings dtype_object n view
  = Some (top_artists_count n view, top_artists_streams n view).
Proof. reflexivity. Qed.

(** On the [float64] column of a file without any artist line 272 raises:
    there is no ranking. *)
Lemma artist_rankings_float64 n view :
  artist_rankings dtype_float64 n view = None.
Proof. reflexivity. Qed.

(** C8: on every view whose artist column is a column of strings (dtype
    [object]), so that the split of line 272 does not raise, both rankings
    of the top [n] artists, by number of songs and by summed streams, are
    returned and have [min n g] entries, where [g] is the number of
    distinct artist groups of the view: a request for more than [g] entries
    returns the [g] groups and nothing else. *)
Theorem top_artists_clamped dt n view :
  dt = dtype_object ->
  artist_rankings dt n view
    = Some (top_artists_count n view, top_artists_streams n view)
  /\ length (top_artists_count n view) = min n (size (artist_groups view))
  /\ length (top_artists_streams n view) = min n (size (artist_groups view)).
Proof.
  intros ->. split; [apply artist_rankings_object|].
  unfold top_artists_count, top_artists_streams, artist_groups.
  rewrite !nlargest_length, value_counts_length, groupby_sum_length.
  by rewrite !omap_fmap.
Qed.

Lemma top_artists_clamped_witness :
  let view := [Artists.song "A,_B" 10; Artists.song "B" 5; Artists.song "C" 1] in
  artist_rankings dtype_object 2 view
    = Some (top_artists_count 2 view, top_artists_streams 2 view)
  /\ length (top_artists_count 2 view) = min 2 (size (artist_groups view))
  /\ length (top_artists_streams 2 view) = min 2 (size (artist_groups view)).
Proof.
  apply (top_artists_clamped dtype_object 2
           [Artists.song "A,_B" 10; Artists.song "B" 5; Artists.song "C" 1]).
  reflexivity.
Defined.

(** C2: the artist field "A, B" is one group of the artist-occurrence
    aggregate: it adds one count to the label "A, B" and none to "A" or
    "B", because the script splits at [",_"]; only a field written "A,_B"
    is counted for "A" and for "B". *)
Theorem joined_artist_not_split :
  str_split artist_separator "A, B" = ["A, B"]
  /\ value_counts (artist_name <$> df_artists [Artists.song "A, B" 10])
     = [("A, B", 1)]
  /\ top_artists_count 15 [Artists.song "A, B" 10] = [("A, B", 1)]
  /\ value_counts (artist_name <$> df_artists [Artists.song "A,_B" 10])
     = [("A", 1); ("B", 1)].
Proof. repeat split; reflexivity. Qed.

(** ** Key metrics *)

Lemma total_artists_strings view :
  total_artists view = size (artist_strings view).
Proof.
  unfold total_artists, artist_strings.
  by rewrite nunique_size, omap_fmap.
Qed.

(** C1: the metric counts the distinct artist strings as they stand, without
    splitting them: for the single row by "A, B" it shows 1 where the
    individual names are 2, and for the row by "A,_B", which the ranking of
    the artists splits into two groups, it shows 1 as well. *)
Theorem total_artists_counts_joined_strings :
  (forall view, total_artists view = size (artist_strings view))
  /\ total_artists [Artists.song "A, B" 10] = 1%nat
  /\ size (Artists.individual ", " [Artists.song "A, B" 10]) = 2%nat
  /\ total_artists [Artists.song "A,_B" 10] = 1%nat
  /\ size (artist_groups [Artists.song "A,_B" 10]) = 2%nat.
Proof.
  split; [exact total_artists_strings|].
  repeat split; vm_compute; reflexivity.
Qed.

(** ** The empty view *)

(** C7: when the filtered view has no rows the page shows the warning that
    no data matches and nothing else: no metric and no ranking is
    computed. *)
Theorem empty_view_shows_warning s df :
  filtered_df s df = [] ->
  page s df = [warning no_match_warning]
  /\ Forall (fun e => is_aggregate e = false) (page s df).
Proof.
  intros E. unfold page. rewrite E. simpl.
  split; [done|]. by repeat constructor.
Qed.

Lemma empty_view_shows_warning_witness :
  let s := Ranges.set_range Ranges.Year (1990, 1999) Scenario.chosen in
  page s Scenario.table = [warning no_match_warning]
  /\ Forall (fun e => is_aggregate e = false) (page s Scenario.table).
Proof.
  apply (empty_view_shows_warning
           (Ranges.set_range Ranges.Year (1990, 1999) Scenario.chosen)
           Scenario.table).
  reflexivity.
Defined.

(** ** The loader *)

Lemma Forall2_elem_of_right {A B} (P : A -> B -> Prop) l k y :
  Forall2 P l k -> y ∈ k -> exists x, x ∈ l /\ P x y.
Proof.
  induction 1 as [|x y' l k p _ IH]; intros In.
  - by apply elem_of_nil in In.
  - apply elem_of_cons in In as [->|In].
    + exists x. split; [left|done].
    + destruct (IH In) as (x' & ? & ?). exists x'. split; [by right|done].
Qed.

Lemma drop_duplicates_length_le {A} `{EqDecision A} (l : list A) :
  (length (drop_duplicates l) <= length l)%nat.
Proof.
  unfold drop_duplicates. generalize (@nil A) as seen.
  induction l as [|x l IH]; intros seen; simpl; [done|].
  destruct (decide (x ∈ seen)); simpl.
  - specialize (IH seen). lia.
  - specialize (IH (x :: seen)). lia.
Qed.

Section LoaderProperties.
Context {float64 : Type}.
Variable to_numeric : string -> option float64.
Variable astype_int64 : float64 -> option Z.
Variable to_datetime : Z -> Z -> Z -> option date.

Local Abbreviation coerce_streams' := (coerce_streams to_numeric).
Local Abbreviation has_numeric_streams' := (has_numeric_streams to_numeric).
Local Abbreviation typed_row' := (typed_row astype_int64 to_datetime).
Local Abbreviation normalize' := (normalize to_numeric astype_int64 to_datetime).
Local Abbreviation load_data' := (load_data to_numeric astype_int64 to_datetime).

Lemma elem_of_coerce_streams raws raw f :
  (raw, f) ∈ coerce_streams' raws
  <-> raw ∈ raws /\ to_numeric (raw_streams raw) = Some f.
Proof.
  unfold coerce_streams. rewrite list_elem_of_omap. split.
  - intros (x & In & E). apply fmap_Some in E as (f' & E & [= -> ->]). done.
  - intros [In E]. exists raw. by rewrite E.
Qed.

(** The rows that are not numeric in [streams] leave no trace. *)
Lemma coerce_streams_numeric_only raws :
  coerce_streams' (List.filter has_numeric_streams' raws) = coerce_streams' raws.
Proof.
  unfold coerce_streams, has_numeric_streams.
  induction raws as [|raw raws IH]; [done|].
  cbn [List.filter omap list_omap].
  destruct (to_numeric (raw_streams raw)) as [f|] eqn:E; [|exact IH].
  cbn [omap list_omap]. rewrite E. cbn [fmap option_fmap option_map].
  f_equal. exact IH.
Qed.

Lemma coerce_streams_length raws :
  length (coerce_streams' raws) = length (List.filter has_numeric_streams' raws).
Proof.
  unfold coerce_streams, has_numeric_streams.
  induction raws as [|raw raws IH]; [done|].
  cbn [List.filter omap list_omap].
  destruct (to_numeric (raw_streams raw)); simpl; by rewrite <- ?IH.
Qed.

Lemma typed_row_streams row r :
  typed_row' row = Some r -> astype_int64 row.2 = Some (streams r).
Proof.
  unfold typed_row. intros E.
  apply bind_Some in E as (n & -> & [= <-]). done.
Qed.

Lemma normalize_Some raws df :
  normalize' raws = Some df
  <-> exists rows, mapM typed_row' (coerce_streams' raws) = Some rows
                   /\ rows <> [] /\ df = drop_duplicates rows.
Proof.
  unfold normalize. split.
  - intros E. apply bind_Some in E as (rows & M & E). exists rows.
    split; [done|]. destruct rows; [discriminate|]. by injection E as <-.
  - intros (rows & M & N & ->). rewrite M. simpl. by destruct rows.
Qed.

Lemma elem_of_normalize raws df r :
  normalize' raws = Some df -> r ∈ df ->
  exists raw f, raw ∈ raws /\ to_numeric (raw_streams raw) = Some f
                /\ typed_row' (raw, f) = Some r.
Proof.
  intros E In.
  apply normalize_Some in E as (rows & M & _ & ->).
  rewrite elem_of_drop_duplicates in In.
  apply mapM_Some in M.
  destruct (Forall2_elem_of_right _ _ _ _ M In) as ([raw f] & C & T).
  apply elem_of_coerce_streams in C as [? ?]. by exists raw, f.
Qed.

Lemma normalize_length raws df :
  normalize' raws = Some df ->
  (length df <= length (List.filter has_numeric_streams' raws))%nat.
Proof.
  intros E.
  apply normalize_Some in E as (rows & M & _ & ->).
  apply mapM_Some, Forall2_length in M.
  rewrite <- coerce_streams_length, M. apply drop_duplicates_length_le.
Qed.

Lemma load_data_Loaded read_csv path df :
  load_data' read_csv path = Loaded df ->
  exists raws, read_csv path = Some raws /\ normalize' raws = Some df.
Proof.
  unfold load_data. intros E.
  destruct (read_csv path) as [raws|]; [|discriminate].
  exists raws. split; [done|].
  destruct (normalize' raws); [|discriminate]. congruence.
Qed.

(** C5: a row whose [streams] cell is not numeric is dropped by the loader:
    the table is the one the rows with a numeric cell give by themselves, it
    has no more rows than there are such rows, and each of its rows is the
    typed copy of a row with a numeric cell, carrying the integer conversion
    of that cell and no stand-in value. *)
Theorem non_numeric_streams_dropped read_csv path raws df :
  read_csv path = Some raws ->
  load_data' read_csv path = Loaded df ->
  normalize' (List.filter has_numeric_streams' raws) = Some df
  /\ (length df <= length (List.filter has_numeric_streams' raws))%nat
  /\ forall r, r ∈ df ->
       exists raw f, raw ∈ raws /\ to_numeric (raw_streams raw) = Some f
                     /\ typed_row' (raw, f) = Some r.
Proof.
  intros F L. apply load_data_Loaded in L as (raws' & F' & N).
  assert (raws' = raws) as -> by congruence.
  split; [|split].
  - unfold normalize in *. by rewrite coerce_streams_numeric_only.
  - by apply normalize_length.
  - intros r In. by apply (elem_of_normalize raws df).
Qed.

(** C6, as the loader has it: every row of the table it returns is the
    typed copy of a record of the file whose [streams] cell is numeric, and
    has in [streams] an integer, the integer conversion of the number that
    cell of its own record was read as; the sign of that number is not
    looked at. *)
Theorem loaded_streams_converted read_csv path df r :
  load_data' read_csv path = Loaded df -> r ∈ df ->
  exists raws raw f,
    read_csv path = Some raws /\ raw ∈ raws
    /\ to_numeric (raw_streams raw) = Some f
    /\ typed_row' (raw, f) = Some r
    /\ astype_int64 f = Some (streams r).
Proof.
  intros L In. apply load_data_Loaded in L as (raws & F & N).
  destruct (elem_of_normalize raws df r N In) as (raw & f & ? & ? & T).
  exists raws, raw, f. repeat (split; [done|]). by apply typed_row_streams in T.
Qed.
End LoaderProperties.

(** The loader on the example files. *)
Example load_csv_text_in_streams :
  load_csv (Files.disk Files.with_text_in_streams) Files.path
  = Loaded [Files.loaded "first" 141381703; Files.loaded "third" 133716286].
Proof. reflexivity. Qed.

Example load_csv_missing_file :
  load_csv (Files.disk Files.with_text_in_streams) "other.csv"
  = DataUnavailable (not_found_error "other.csv").
Proof. reflexivity. Qed.

Lemma non_numeric_streams_dropped_witness :
  let df := [Files.loaded "first" 141381703; Files.loaded "third" 133716286] in
  normalize int_literal int_astype calendar_date
    (List.filter (has_numeric_streams int_literal) Files.with_text_in_streams)
  = Some df
  /\ (length df
      <= length (List.filter (has_numeric_streams int_literal)
                   Files.with_text_in_streams))%nat
  /\ exists raw f, raw ∈ Files.with_text_in_streams
                   /\ int_literal (raw_streams raw) = Some f
                   /\ typed_row int_astype calendar_date (raw, f)
                      = Some (Files.loaded "third" 133716286).
Proof.
  destruct (non_numeric_streams_dropped int_literal int_astype calendar_date
              (Files.disk Files.with_text_in_streams) Files.path
              Files.with_text_in_streams
              [Files.loaded "first" 141381703; Files.loaded "third" 133716286]
              eq_refl eq_refl) as (N & L & P).
  split; [exact N|]. split; [exact L|].
  apply P. right. left.
Defined.

Lemma loaded_streams_converted_witness :
  exists raws raw f,
    Files.disk Files.with_negative_streams Files.path = Some raws
    /\ raw ∈ raws
    /\ int_literal (raw_streams raw) = Some f
    /\ typed_row int_astype calendar_date (raw, f)
       = Some (Files.loaded "first" (-5))
    /\ int_astype f = Some (streams (Files.loaded "first" (-5))).
Proof.
  apply (loaded_streams_converted int_literal int_astype calendar_date
           (Files.disk Files.with_negative_streams) Files.path
           [Files.loaded "first" (-5)]).
  - reflexivity.
  - left.
Defined.

(** C6 does not hold with "non-negative": for the file whose only record
    has "-5" in [streams] the loader returns the row, with [streams = -5]. *)
Lemma negative_streams_retained :
  ~ (forall df r,
       load_csv (Files.disk Files.with_negative_streams) Files.path = Loaded df ->
       r ∈ df -> 0 <= streams r).
Proof.
  intros H.
  specialize (H [Files.loaded "first" (-5)] (Files.loaded "first" (-5))
                eq_refl (list_elem_of_here _ _)).
  simpl in H. lia.
Qed.

(** * Further properties *)

(** ** Grouping *)

Section GroupingProperties.
Context {K : Type} (eqb : K -> K -> bool).
Hypothesis eqb_eq : forall x y, eqb x y = true <-> x = y.

Lemma eqb_refl_with x : eqb x x = true.
Proof. by apply eqb_eq. Qed.

Lemma assoc_upsert_with f k k' m :
  assoc eqb k' (upsert_with eqb f k m)
  = if eqb k' k then Some (f (assoc eqb k m)) else assoc eqb k' m.
Proof.
  induction m as [|[k0 v] m IH]; simpl; [done|].
  destruct (eqb k k0) eqn:E; simpl.
  - apply eqb_eq in E as ->. by destruct (eqb k' k0).
  - rewrite IH. destruct (eqb k' k0) eqn:E0, (eqb k' k) eqn:E1; try done.
    apply eqb_eq in E0 as ->. apply eqb_eq in E1 as ->.
    by rewrite eqb_refl_with in E.
Qed.

Lemma assoc_Some_elem_of k v m : assoc eqb k m = Some v -> (k, v) ∈ m.
Proof.
  induction m as [|[k0 v0] m IH]; simpl; [done|].
  destruct (eqb k k0) eqn:E.
  - apply eqb_eq in E as ->. intros [= ->]. left.
  - intros H. right. by apply IH.
Qed.

Lemma assoc_None_labels k m : assoc eqb k m = None <-> k ∉ m.*1.
Proof.
  induction m as [|[k0 v0] m IH]; simpl.
  - split; [intros _; apply not_elem_of_nil|done].
  - rewrite not_elem_of_cons. destruct (eqb k k0) eqn:E.
    + apply eqb_eq in E. split; [done|tauto].
    + rewrite IH. split; [|tauto]. intros N. split; [|done].
      intros ->. by rewrite eqb_refl_with in E.
Qed.

Lemma elem_of_assoc k v m : NoDup m.*1 -> (k, v) ∈ m -> assoc eqb k m = Some v.
Proof.
  induction m as [|[k0 v0] m IH]; simpl; intros N In.
  - by apply elem_of_nil in In.
  - apply NoDup_cons in N as [N0 N]. apply elem_of_cons in In as [[= -> ->]|In].
    + by rewrite eqb_refl_with.
    + destruct (eqb k k0) eqn:E; [|by apply IH].
      apply eqb_eq in E as ->. exfalso. apply N0.
      apply list_elem_of_fmap. by exists (k0, v).
Qed.

Lemma upsert_with_labels_NoDup f k m :
  NoDup m.*1 -> NoDup (upsert_with eqb f k m).*1.
Proof.
  induction m as [|[k0 v0] m IH]; simpl; intros N.
  - apply NoDup_singleton.
  - apply NoDup_cons in N as [N0 N]. destruct (eqb k k0) eqn:E; simpl.
    + by apply NoDup_cons.
    + apply NoDup_cons. split; [|by apply IH].
      rewrite <- assoc_None_labels, assoc_upsert_with.
      destruct (eqb k0 k) eqn:E'.
      * apply eqb_eq in E' as ->. by rewrite eqb_refl_with in E.
      * by apply assoc_None_labels.
Qed.

Section Rows.
Context {R : Type} (label : R -> option K) (f : R -> option Z -> Z).

Lemma tally_with_labels_NoDup_from m rows :
  NoDup m.*1 -> NoDup (foldl (tally_step_with eqb label f) m rows).*1.
Proof.
  revert m. induction rows as [|row rows IH]; intros m N; simpl; [done|].
  apply IH. unfold tally_step_with. destruct (label row); [|done].
  by apply upsert_with_labels_NoDup.
Qed.

Lemma tally_with_labels_NoDup rows : NoDup (tally_with eqb label f rows).*1.
Proof. apply tally_with_labels_NoDup_from. constructor. Qed.

(** The value at a label is made from the rows that carry it, in order. *)
Lemma assoc_tally_with_from k m rows :
  assoc eqb k (foldl (tally_step_with eqb label f) m rows)
  = foldl (fun acc row => Some (f row acc)) (assoc eqb k m)
      (List.filter (labelled eqb label k) rows).
Proof.
  revert m. induction rows as [|row rows IH]; intros m; simpl; [done|].
  rewrite IH. unfold tally_step_with, labelled.
  destruct (label row) as [k'|]; [|done].
  rewrite assoc_upsert_with. rewrite (eq_true_iff_eq (eqb k' k) (eqb k k')).
  - by destruct (eqb k k') eqn:E; [apply eqb_eq in E as ->|].
  - rewrite !eqb_eq. split; congruence.
Qed.

Lemma assoc_tally_with k rows :
  assoc eqb k (tally_with eqb label f rows)
  = group_value f (List.filter (labelled eqb label k) rows).
Proof. apply assoc_tally_with_from. Qed.

Lemma elem_of_tally_with k v rows :
  (k, v) ∈ tally_with eqb label f rows
  <-> group_value f (List.filter (labelled eqb label k) rows) = Some v.
Proof.
  rewrite <- assoc_tally_with. split.
  - apply elem_of_assoc, tally_with_labels_NoDup.
  - apply assoc_Some_elem_of.
Qed.
End Rows.
End GroupingProperties.

(** The grouping of string labels above is the instance at [String.eqb]. *)
Lemma upsert_upsert_with f k m : upsert f k m = upsert_with String.eqb f k m.
Proof. induction m as [|[k' v] m IH]; simpl; [done|]. by rewrite IH. Qed.

Lemma tally_step_with_string {R} (label : R -> option string) f m row :
  tally_step label f m row = tally_step_with String.eqb label f m row.
Proof.
  unfold tally_step, tally_step_with.
  destruct (label row); [apply upsert_upsert_with|done].
Qed.

Lemma tally_tally_with {R} (label : R -> option string) f rows :
  tally label f rows = tally_with String.eqb label f rows.
Proof.
  unfold tally, tally_with. generalize (@nil (string * Z)) as m.
  induction rows as [|row rows IH]; intros m; [done|].
  cbn [foldl]. by rewrite tally_step_with_string, IH.
Qed.

(** ** Sums and 64-bit wrap-around *)

Lemma wrap64_range z : - 2 ^ 63 <= wrap64 z < 2 ^ 63.
Proof.
  unfold wrap64.
  pose proof (Z.mod_pos_bound (z + 2 ^ 63) (2 ^ 64) ltac:(lia)). lia.
Qed.

Lemma wrap64_small z : - 2 ^ 63 <= z < 2 ^ 63 -> wrap64 z = z.
Proof. intros H. unfold wrap64. rewrite Z.mod_small; lia. Qed.

Lemma wrap64_add_l a b : wrap64 (wrap64 a + b) = wrap64 (a + b).
Proof.
  unfold wrap64.
  replace ((a + 2 ^ 63) mod 2 ^ 64 - 2 ^ 63 + b + 2 ^ 63)
    with ((a + 2 ^ 63) mod 2 ^ 64 + b) by lia.
  rewrite Zplus_mod_idemp_l. f_equal. f_equal. lia.
Qed.

Lemma Zsum_app l1 l2 : Zsum (l1 ++ l2) = Zsum l1 + Zsum l2.
Proof. unfold Zsum. induction l1 as [|x l1 IH]; simpl; lia. Qed.

Lemma Zsum_nonneg l : Forall (fun x => 0 <= x) l -> 0 <= Zsum l.
Proof. unfold Zsum. induction 1; simpl; lia. Qed.

Lemma foldl_wrap_sum {R} (g : R -> Z) a rows :
  foldl (fun acc r => wrap64 (acc + g r)) (wrap64 a) rows
  = wrap64 (a + Zsum (g <$> rows)).
Proof.
  revert a. induction rows as [|r rows IH]; intros a.
  - simpl. f_equal. lia.
  - cbn [foldl]. rewrite wrap64_add_l, IH, fmap_cons. f_equal. simpl. lia.
Qed.

(** The value of a group that is counted, and of a group that is summed. *)
Lemma group_value_count {R} (rows : list R) :
  group_value (fun _ old => default 0 old + 1) rows
  = match rows with [] => None | _ => Some (Z.of_nat (length rows)) end.
Proof.
  unfold group_value.
  assert (G : forall a (l : list R),
             foldl (fun acc _ => Some (default 0 acc + 1)) (Some a) l
             = Some (a + Z.of_nat (length l))).
  { intros a l. revert a. induction l as [|r l IH]; intros a.
    - simpl. f_equal. lia.
    - cbn [foldl]. rewrite IH. f_equal. simpl default. simpl length. lia. }
  destruct rows as [|r rows]; [done|].
  cbn [foldl]. rewrite G. f_equal. simpl default. simpl length. lia.
Qed.

Lemma group_value_sum {R} (g : R -> Z) (rows : list R) :
  group_value (fun row old => wrap64 (default 0 old + g row)) rows
  = match rows with [] => None | _ => Some (wrap64 (Zsum (g <$> rows))) end.
Proof.
  unfold group_value.
  assert (G : forall a (l : list R),
             foldl (fun acc row => Some (wrap64 (default 0 acc + g row)))
               (Some (wrap64 a)) l
             = Some (wrap64 (a + Zsum (g <$> l)))).
  { intros a l. revert a. induction l as [|r l IH]; intros a.
    - simpl. do 2 f_equal. lia.
    - cbn [foldl]. simpl default. rewrite wrap64_add_l, IH, fmap_cons.
      do 2 f_equal. simpl. lia. }
  destruct rows as [|r rows]; [done|].
  cbn [foldl]. simpl default. rewrite G, fmap_cons. done.
Qed.

(** ** Sorted output *)

Section SortSorted.
Context {A : Type} (before : A -> A -> bool).
Hypothesis before_total : forall x y, before x y = true \/ before y x = true.
Hypothesis before_trans :
  forall x y z, before x y = true -> before y z = true -> before x z = true.

Lemma elem_of_insert_by x y l : y ∈ insert_by before x l <-> y = x \/ y ∈ l.
Proof. by rewrite insert_by_Permutation, elem_of_cons. Qed.

Lemma insert_by_sorted x l :
  StronglySorted (fun a b => before a b = true) l ->
  StronglySorted (fun a b => before a b = true) (insert_by before x l).
Proof.
  induction 1 as [|y l S IH F]; simpl.
  - repeat constructor.
  - destruct (before x y) eqn:E.
    + constructor; [by constructor|]. constructor; [done|].
      eapply Forall_impl; [exact F|]. intros z. by apply before_trans.
    + constructor; [done|]. apply Forall_forall. intros z In.
      apply elem_of_insert_by in In as [->|In].
      * destruct (before_total x y); congruence.
      * by apply (proj1 (Forall_forall _ _) F).
Qed.

Lemma sort_by_sorted l :
  StronglySorted (fun a b => before a b = true) (sort_by before l).
Proof.
  induction l as [|x l IH]; simpl; [constructor|]. by apply insert_by_sorted.
Qed.

(** The first [n] elements of the sorted list may precede all the others. *)
Lemma sort_by_take_drop n l x y :
  x ∈ take n (sort_by before l) -> y ∈ drop n (sort_by before l) ->
  before x y = true.
Proof.
  intros Hx Hy. pose proof (sort_by_sorted l) as S.
  rewrite <- (take_drop n (sort_by before l)) in S.
  exact (sorting.StronglySorted_app_1_elem_of _ _ _ _ _ S Hx Hy).
Qed.

Lemma sort_by_take_sorted n l :
  StronglySorted (fun a b => before a b = true) (take n (sort_by before l)).
Proof.
  pose proof (sort_by_sorted l) as S.
  rewrite <- (take_drop n (sort_by before l)) in S.
  by apply sorting.StronglySorted_app_1_l in S.
Qed.
End SortSorted.

Lemma by_value_desc_total x y :
  by_value_desc x y = true \/ by_value_desc y x = true.
Proof. unfold by_value_desc. rewrite !Z.leb_le. lia. Qed.

Lemma by_value_desc_trans x y z :
  by_value_desc x y = true -> by_value_desc y z = true ->
  by_value_desc x z = true.
Proof. unfold by_value_desc. rewrite !Z.leb_le. lia. Qed.

Lemma elem_of_sort_by {A} (before : A -> A -> bool) l x :
  x ∈ sort_by before l <-> x ∈ l.
Proof. by rewrite sort_by_Permutation. Qed.

Lemma StronglySorted_impl {A} (R1 R2 : A -> A -> Prop) l :
  (forall x y, R1 x y -> R2 x y) -> StronglySorted R1 l -> StronglySorted R2 l.
Proof.
  intros I. induction 1 as [|x l S IH F]; constructor; [done|].
  eapply Forall_impl; [exact F|]. intros y. apply I.
Qed.

(** ** [nlargest] *)

Lemma nlargest_sorted n s :
  StronglySorted (fun x y => y.2 <= x.2) (nlargest n s).
Proof.
  unfold nlargest.
  eapply StronglySorted_impl;
    [|apply sort_by_take_sorted;
      [apply by_value_desc_total|apply by_value_desc_trans]].
  intros x y. unfold by_value_desc. by rewrite Z.leb_le.
Qed.

Lemma nlargest_elem_of n s x : x ∈ nlargest n s -> x ∈ s.
Proof.
  unfold nlargest. intros In. apply (elem_of_sort_by by_value_desc).
  rewrite <- (take_drop n (sort_by by_value_desc s)).
  apply elem_of_app. by left.
Qed.

Lemma nlargest_dominates n s x y :
  x ∈ nlargest n s -> y ∈ s -> y ∉ nlargest n s -> y.2 <= x.2.
Proof.
  unfold nlargest. intros Hx Hy Ny.
  apply (elem_of_sort_by by_value_desc) in Hy.
  rewrite <- (take_drop n (sort_by by_value_desc s)) in Hy.
  apply elem_of_app in Hy as [Hy|Hy]; [done|].
  apply Z.leb_le.
  exact (sort_by_take_drop by_value_desc by_value_desc_total
           by_value_desc_trans n s x y Hx Hy).
Qed.

Lemma nlargest_all n s : (length s <= n)%nat -> nlargest n s ≡ₚ s.
Proof.
  intros L. unfold nlargest. rewrite take_ge.
  - apply sort_by_Permutation.
  - by rewrite sort_by_length.
Qed.

(** ** What [value_counts] and [groupby(...).sum()] hold *)

Lemma labelled_string_spec {R} (label : R -> option string) k row :
  labelled String.eqb label k row = true <-> label row = Some k.
Proof.
  unfold labelled. destruct (label row) as [k'|].
  - rewrite String.eqb_eq. split; congruence.
  - split; discriminate.
Qed.

Lemma labelled_filter {R} (label : R -> option string) k rows :
  List.filter (labelled String.eqb label k) rows
  = filter (fun row => label row = Some k) rows.
Proof. apply filter_mask_decide. intros row. apply labelled_string_spec. Qed.

Lemma filter_fmap_label {R} (label : R -> option string) k (rows : list R) :
  filter (fun cell => cell = Some k) (label <$> rows)
  = label <$> filter (fun row => label row = Some k) rows.
Proof.
  induction rows as [|row rows IH]; [done|].
  rewrite fmap_cons, !filter_cons, IH.
  by destruct (decide (label row = Some k)).
Qed.

Lemma elem_of_value_counts col k c :
  (k, c) ∈ value_counts col
  <-> 0 < c /\ c = Z.of_nat (length (filter (fun cell => cell = Some k) col)).
Proof.
  unfold value_counts.
  rewrite elem_of_sort_by, tally_tally_with.
  rewrite (elem_of_tally_with String.eqb String.eqb_eq).
  rewrite group_value_count, labelled_filter. unfold id.
  destruct (filter (fun cell => cell = Some k) col) as [|x l]; simpl length.
  - split; [done|]. intros [? ->]. simpl in *. lia.
  - split.
    + intros [= <-]. split; lia.
    + intros [_ ->]. done.
Qed.

Lemma elem_of_groupby_sum rows k v :
  (k, v) ∈ groupby_sum rows
  <-> filter (fun row => row.1 = Some k) rows <> []
      /\ v = wrap64 (Zsum (snd <$> filter (fun row => row.1 = Some k) rows)).
Proof.
  unfold groupby_sum.
  rewrite elem_of_sort_by, tally_tally_with.
  rewrite (elem_of_tally_with String.eqb String.eqb_eq).
  rewrite (group_value_sum snd), labelled_filter.
  destruct (filter (fun row => row.1 = Some k) rows) as [|x l].
  - split; [done|]. by intros [? _].
  - split.
    + intros [= <-]. done.
    + intros [_ ->]. done.
Qed.

Lemma value_counts_labels_NoDup col : NoDup (value_counts col).*1.
Proof.
  unfold value_counts. rewrite sort_by_Permutation, tally_tally_with.
  apply tally_with_labels_NoDup, String.eqb_eq.
Qed.

Lemma groupby_sum_labels_NoDup rows : NoDup (groupby_sum rows).*1.
Proof.
  unfold groupby_sum. rewrite sort_by_Permutation, tally_tally_with.
  apply tally_with_labels_NoDup, String.eqb_eq.
Qed.

Lemma nlargest_labels_NoDup n s : NoDup s.*1 -> NoDup (nlargest n s).*1.
Proof.
  unfold nlargest. intros N. rewrite fmap_take.
  eapply sublist_NoDup; [|apply sublist_take].
  by rewrite sort_by_Permutation.
Qed.

(** The cells of the exploded artist column that read [k] are the rows
    credited to [k]. *)
Lemma credited_cells k view :
  filter (fun cell => cell = Some k) (artist_name <$> df_artists view)
  = artist_name <$> credited k view.
Proof. apply filter_fmap_label. Qed.

Lemma credited_pairs k view :
  filter (fun row : option string * Z => row.1 = Some k)
    ((fun r => (artist_name r, streams r)) <$> df_artists view)
  = (fun r => (artist_name r, streams r)) <$> credited k view.
Proof.
  unfold credited. induction (df_artists view) as [|r rows IH]; [done|].
  rewrite fmap_cons, !filter_cons, IH. simpl.
  by destruct (decide (artist_name r = Some k)).
Qed.

(** ** The rankings of the artists (lines 277 and 287) *)

(** X1: every bar of the ranking by number of songs shows the number of
    rows of the exploded table credited to its artist, which is positive. *)
Theorem top_artists_count_true n view k c :
  (k, c) ∈ top_artists_count n view ->
  0 < c /\ c = Z.of_nat (length (credited k view)).
Proof.
  unfold top_artists_count. intros In.
  apply nlargest_elem_of, elem_of_value_counts in In.
  by rewrite credited_cells, length_fmap in In.
Qed.

Lemma top_artists_count_true_witness :
  0 < 2 /\ 2 = Z.of_nat (length (credited "B"
                  [Artists.song "A,_B" 10; Artists.song "B" 5; Artists.song "C" 1])).
Proof.
  apply (top_artists_count_true 2
           [Artists.song "A,_B" 10; Artists.song "B" 5; Artists.song "C" 1]
           "B" 2).
  vm_compute. left.
Defined.

(** X2: every bar of the ranking by streams shows the sum, in 64-bit
    arithmetic, of the streams of the rows credited to its artist. *)
Theorem top_artists_streams_true n view k v :
  (k, v) ∈ top_artists_streams n view ->
  credited k view <> []
  /\ v = wrap64 (Zsum (streams <$> credited k view)).
Proof.
  unfold top_artists_streams. intros In.
  apply nlargest_elem_of, elem_of_groupby_sum in In.
  rewrite credited_pairs in In. destruct In as [N ->]. split.
  - intros E. apply N. by rewrite E.
  - by rewrite <- list_fmap_compose.
Qed.

Lemma top_artists_streams_true_witness :
  credited "B" [Artists.song "A,_B" 10; Artists.song "B" 5; Artists.song "C" 1]
    <> []
  /\ 15 = wrap64 (Zsum (streams <$> credited "B"
             [Artists.song "A,_B" 10; Artists.song "B" 5; Artists.song "C" 1])).
Proof.
  apply (top_artists_streams_true 2
           [Artists.song "A,_B" 10; Artists.song "B" 5; Artists.song "C" 1]
           "B" 15).
  vm_compute. left.
Defined.

(** X3: both rankings list their bars from the largest value to the
    smallest, and no artist has two bars. *)
Theorem top_artists_sorted n view :
  StronglySorted (fun x y => y.2 <= x.2) (top_artists_count n view)
  /\ NoDup (top_artists_count n view).*1
  /\ StronglySorted (fun x y => y.2 <= x.2) (top_artists_streams n view)
  /\ NoDup (top_artists_streams n view).*1.
Proof.
  unfold top_artists_count, top_artists_streams.
  repeat split; try apply nlargest_sorted; apply nlargest_labels_NoDup.
  - apply value_counts_labels_NoDup.
  - apply groupby_sum_labels_NoDup.
Qed.

(** X4: an artist left out of a ranking has no larger value than any
    artist shown in it. *)
Theorem top_artists_dominate n view shown left_out :
  (shown ∈ top_artists_count n view ->
   left_out ∈ value_counts (artist_name <$> df_artists view) ->
   left_out ∉ top_artists_count n view ->
   left_out.2 <= shown.2)
  /\ (shown ∈ top_artists_streams n view ->
      left_out ∈ groupby_sum
                   ((fun r => (artist_name r, streams r)) <$> df_artists view) ->
      left_out ∉ top_artists_streams n view ->
      left_out.2 <= shown.2).
Proof. split; apply nlargest_dominates. Qed.

Lemma top_artists_dominate_witness :
  let view := [Artists.song "A,_B" 10; Artists.song "B" 5; Artists.song "C" 1] in
  ("A", 1).2 <= ("B", 2).2.
Proof.
  apply (proj1 (top_artists_dominate 1
                  [Artists.song "A,_B" 10; Artists.song "B" 5; Artists.song "C" 1]
                  ("B", 2) ("A", 1))).
  - vm_compute. left.
  - vm_compute. right. left.
  - vm_compute. intros H. apply list_elem_of_singleton in H. discriminate H.
Defined.

(** X5: when at least as many bars are asked for as there are artist
    groups, every artist of the exploded table has a bar in both
    rankings. *)
Theorem top_artists_complete n view k :
  (size (artist_groups view) <= n)%nat ->
  k ∈ artist_groups view ->
  (exists c, (k, c) ∈ top_artists_count n view)
  /\ (exists v, (k, v) ∈ top_artists_streams n view).
Proof.
  unfold artist_groups, top_artists_count, top_artists_streams.
  intros L In. apply elem_of_list_to_set, list_elem_of_omap in In
    as (r & In & E).
  assert (C : credited k view <> []).
  { unfold credited. intros N.
    assert (r ∈ filter (fun r => artist_name r = Some k) (df_artists view))
      as I by (by apply list_elem_of_filter).
    rewrite N in I. by apply elem_of_nil in I. }
  split.
  - exists (Z.of_nat (length (credited k view))).
    rewrite nlargest_all.
    + apply elem_of_value_counts. rewrite credited_cells, length_fmap.
      split; [|done]. destruct (credited k view); [done|simpl; lia].
    + by rewrite value_counts_length, omap_fmap.
  - exists (wrap64 (Zsum (streams <$> credited k view))).
    rewrite nlargest_all.
    + apply elem_of_groupby_sum. rewrite credited_pairs. split.
      * intros E'. apply fmap_nil_inv in E'. done.
      * by rewrite <- list_fmap_compose.
    + by rewrite groupby_sum_length, omap_fmap.
Qed.

Lemma top_artists_complete_witness :
  let view := [Artists.song "A,_B" 10; Artists.song "B" 5; Artists.song "C" 1] in
  (exists c, ("C", c) ∈ top_artists_count 5 view)
  /\ (exists v, ("C", v) ∈ top_artists_streams 5 view).
Proof.
  apply (top_artists_complete 5
           [Artists.song "A,_B" 10; Artists.song "B" 5; Artists.song "C" 1] "C").
  - vm_compute. lia.
  - apply elem_of_list_to_set. vm_compute. do 3 right. left.
Defined.

(** ** Key metrics (lines 215-217) *)

Lemma total_streams_wrap view :
  total_streams view = wrap64 (Zsum (streams <$> view)).
Proof.
  unfold total_streams.
  change 0 with (wrap64 0) at 1. by rewrite foldl_wrap_sum.
Qed.

(** X6: the metric of all streams is the sum of the [streams] column in
    64-bit arithmetic: it always lies in the [int64] range, and it is the
    exact sum whenever no stream count is negative and the sum is below
    [2^63]. *)
Theorem total_streams_sum view :
  total_streams view = wrap64 (Zsum (streams <$> view))
  /\ - 2 ^ 63 <= total_streams view < 2 ^ 63
  /\ (Forall (fun r => 0 <= streams r) view ->
      Zsum (streams <$> view) < 2 ^ 63 ->
      total_streams view = Zsum (streams <$> view)).
Proof.
  rewrite total_streams_wrap. split; [done|]. split; [apply wrap64_range|].
  intros P B. apply wrap64_small. split; [|done].
  assert (0 <= Zsum (streams <$> view)); [|lia].
  apply Zsum_nonneg, Forall_fmap. exact P.
Qed.

Lemma total_streams_sum_witness :
  total_streams Scenario.table = Zsum (streams <$> Scenario.table).
Proof.
  apply (proj2 (proj2 (total_streams_sum Scenario.table))).
  - repeat constructor; simpl; lia.
  - vm_compute. reflexivity.
Defined.

Lemma omap_length_le {A B} (f : A -> option B) (l : list A) :
  (length (omap f l) <= length l)%nat.
Proof.
  induction l as [|x l IH]; [done|].
  cbn [omap list_omap]. fold (omap f l).
  destruct (f x); simpl; lia.
Qed.

(** X7: the metrics of songs and artists are bounded: the view has no more
    rows than the base table, and there are no more distinct artist strings
    than rows of the view. *)
Theorem metrics_bounded s df :
  (total_tracks (filtered_df s df) <= length df)%nat
  /\ (total_artists (filtered_df s df) <= total_tracks (filtered_df s df))%nat.
Proof.
  unfold total_tracks, total_artists, nunique. split.
  - rewrite filtered_df_filter. apply length_filter.
  - etransitivity; [apply drop_duplicates_length_le|].
    etransitivity; [apply omap_length_le|].
    by rewrite length_fmap.
Qed.

(** ** Splitting artist strings (line 272) *)

Lemma append_cons c s t : (String c s ++ t)%string = String c (s ++ t)%string.
Proof. reflexivity. Qed.

Lemma append_empty_l s : (EmptyString ++ s)%string = s.
Proof. reflexivity. Qed.

Lemma append_empty_r s : (s ++ EmptyString)%string = s.
Proof. induction s as [|c s IH]; [done|]. by rewrite append_cons, IH. Qed.

Lemma append_assoc s t u : ((s ++ t) ++ u)%string = (s ++ (t ++ u))%string.
Proof. induction s as [|c s IH]; [done|]. by rewrite !append_cons, IH. Qed.

Lemma prefix_drop pat s :
  String.prefix pat s = true ->
  s = (pat ++ drop_chars (String.length pat) s)%string.
Proof.
  revert s. induction pat as [|c pat IH]; intros s; [done|].
  destruct s as [|d s]; simpl; [discriminate|].
  destruct (Ascii.ascii_dec c d) as [->|]; [|discriminate].
  intros P. rewrite append_cons. f_equal. by apply IH.
Qed.

Lemma prefix_empty pat : pat <> EmptyString -> String.prefix pat EmptyString = false.
Proof. by destruct pat. Qed.

Lemma drop_chars_length n s :
  (String.length (drop_chars n s) <= String.length s)%nat.
Proof.
  revert s. induction n as [|n IH]; intros [|c s]; simpl; try lia.
  specialize (IH s). lia.
Qed.

(** Passing over the rest of a separator is dropping that many characters. *)
Lemma split_go_skip pat k cur s :
  split_go pat k cur s = split_go pat 0 cur (drop_chars k s).
Proof.
  revert s. induction k as [|k IH]; intros s; [by destruct s|].
  destruct s as [|c s]; [done|]. simpl. apply IH.
Qed.

Lemma split_go_not_nil pat k cur s : split_go pat k cur s <> [].
Proof.
  revert k cur. induction s as [|c s IH]; intros k cur; cbn [split_go]; [done|].
  destruct k; [|apply IH]. destruct (String.prefix pat (String c s)); [done|].
  apply IH.
Qed.

Lemma concat_cons sep x l :
  l <> [] -> String.concat sep (x :: l) = (x ++ sep ++ String.concat sep l)%string.
Proof. by destruct l. Qed.

Lemma split_go_join pat :
  pat <> EmptyString ->
  forall n s cur, (String.length s <= n)%nat ->
    String.concat pat (split_go pat 0 cur s) = (cur ++ s)%string.
Proof.
  intros NE. induction n as [|n IH]; intros s cur L.
  - destruct s; [|simpl in L; lia]. simpl. by rewrite append_empty_r.
  - destruct s as [|c s]; [simpl; by rewrite append_empty_r|].
    cbn [split_go]. destruct (String.prefix pat (String c s)) eqn:P.
    + rewrite split_go_skip, concat_cons by apply split_go_not_nil.
      rewrite IH.
      * rewrite append_empty_l. f_equal.
        etransitivity; [|symmetry; apply (prefix_drop _ _ P)]. f_equal.
        destruct pat as [|p pat]; [done|]. simpl. by rewrite Nat.sub_0_r.
      * pose proof (drop_chars_length (String.length pat - 1) s).
        simpl in L. lia.
    + rewrite IH by (simpl in L; lia).
      by rewrite append_assoc, append_cons, append_empty_l.
Qed.

Lemma split_go_no_occurrence pat cur s :
  occurs pat s = false -> split_go pat 0 cur s = [(cur ++ s)%string].
Proof.
  revert cur. induction s as [|c s IH]; intros cur O.
  - simpl. by rewrite append_empty_r.
  - cbn [occurs] in O. apply orb_false_iff in O as [P O].
    cbn [split_go]. rewrite P, IH by done.
    by rewrite append_assoc, append_cons, append_empty_l.
Qed.

Lemma split_go_occurrence pat cur s :
  pat <> EmptyString -> occurs pat s = true ->
  (2 <= length (split_go pat 0 cur s))%nat.
Proof.
  intros NE. revert cur. induction s as [|c s IH]; intros cur O.
  - cbn [occurs] in O. rewrite prefix_empty in O by done. discriminate.
  - cbn [occurs] in O. cbn [split_go].
    destruct (String.prefix pat (String c s)).
    + pose proof (split_go_not_nil pat (String.length pat - 1) EmptyString s).
      destruct (split_go pat (String.length pat - 1) EmptyString s);
        [done|simpl; lia].
    + by apply IH.
Qed.

(** X8: joining the pieces of a split with the separator gives the string
    back, for every separator that is not empty; a split has at least one
    piece. *)
Theorem str_split_join pat s :
  pat <> EmptyString ->
  String.concat pat (str_split pat s) = s /\ str_split pat s <> [].
Proof.
  intros NE. split; [|apply split_go_not_nil].
  unfold str_split. by rewrite (split_go_join pat NE (String.length s)).
Qed.

Lemma str_split_join_witness :
  String.concat ",_" (str_split ",_" "A,_B,_,_C") = "A,_B,_,_C"
  /\ str_split ",_" "A,_B,_,_C" <> [].
Proof. apply (str_split_join ",_" "A,_B,_,_C"). discriminate. Defined.

(** X9: a string is split into more than one piece exactly when the
    separator occurs in it; without an occurrence the only piece is the
    string itself. *)
Theorem str_split_single pat s :
  pat <> EmptyString ->
  (occurs pat s = false -> str_split pat s = [s])
  /\ (occurs pat s = true -> (2 <= length (str_split pat s))%nat).
Proof.
  intros NE. unfold str_split. split; intros O.
  - by rewrite split_go_no_occurrence.
  - by apply split_go_occurrence.
Qed.

Lemma str_split_single_witness :
  str_split artist_separator "A, B" = ["A, B"].
Proof.
  apply (str_split_single artist_separator "A, B").
  - discriminate.
  - reflexivity.
Defined.

(** ** The exploded table (lines 271-273) *)

Lemma set_artist_name_same r a :
  artist_name r = Some a -> set_artist_name r (Some a) = r.
Proof. destruct r. simpl. by intros ->. Qed.

Lemma df_artists_cons r view :
  df_artists (r :: view)
  = (match artist_name r with
     | Some a => set_artist_name r ∘ Some <$> str_split artist_separator a
     | None => [r]
     end ++ df_artists view)%list.
Proof. reflexivity. Qed.

Lemma df_artists_row_not_nil r :
  match artist_name r with
  | Some a => set_artist_name r ∘ Some <$> str_split artist_separator a
  | None => [r]
  end <> [].
Proof.
  destruct (artist_name r) as [a|]; [|done].
  intros E. apply fmap_nil_inv in E. by apply split_go_not_nil in E.
Qed.

(** X10: on a view whose artist column is a column of strings ([object]),
    none of which contains the separator [",_"], the explode step changes
    nothing: the exploded table is the view itself, the artist groups are
    the artist strings as they stand, and the rankings are taken over the
    whole artist strings. *)
Theorem df_artists_without_separator dt view :
  dt = dtype_object ->
  Forall (fun r => forall a, artist_name r = Some a ->
                             occurs artist_separator a = false) view ->
  explode_artists dt view = Some view
  /\ artist_groups view = artist_strings view
  /\ forall n,
       artist_rankings dt n view
       = Some (nlargest n (value_counts (artist_name <$> view)),
               nlargest n
                 (groupby_sum ((fun r => (artist_name r, streams r)) <$> view))).
Proof.
  intros -> F.
  assert (E : df_artists view = view).
  { induction F as [|r view H F IH]; [done|].
    rewrite df_artists_cons, IH.
    destruct (artist_name r) as [a|] eqn:A; [|done].
    unfold str_split. rewrite split_go_no_occurrence by by apply H.
    rewrite append_empty_l. simpl. by rewrite set_artist_name_same. }
  unfold artist_groups, artist_strings, artist_rankings, explode_artists.
  simpl. by rewrite E.
Qed.

Lemma df_artists_without_separator_witness :
  let view := [Artists.song "A, B" 10; Artists.song "C" 5] in
  explode_artists dtype_object view = Some view
  /\ artist_groups view = artist_strings view
  /\ forall n,
       artist_rankings dtype_object n view
       = Some (nlargest n (value_counts (artist_name <$> view)),
               nlargest n
                 (groupby_sum ((fun r => (artist_name r, streams r)) <$> view))).
Proof.
  apply (df_artists_without_separator dtype_object
           [Artists.song "A, B" 10; Artists.song "C" 5]).
  - reflexivity.
  - repeat constructor; intros a [= <-]; reflexivity.
Defined.

Lemma df_artists_length view : (length view <= length (df_artists view))%nat.
Proof.
  induction view as [|r0 view IH]; [done|].
  rewrite df_artists_cons, length_app. simpl.
  pose proof (df_artists_row_not_nil r0) as N.
  destruct (match artist_name r0 with
            | Some a => set_artist_name r0 ∘ Some
                          <$> str_split artist_separator a
            | None => [r0]
            end); [done|simpl; lia].
Qed.

Lemma df_artists_row_kept view r :
  r ∈ view ->
  exists r', r' ∈ df_artists view
             /\ track_name r' = track_name r /\ streams r' = streams r.
Proof.
  induction view as [|r0 view IH]; intros In.
  - by apply elem_of_nil in In.
  - rewrite df_artists_cons. apply elem_of_cons in In as [->|In].
    + destruct (artist_name r0) as [a|].
      * destruct (str_split artist_separator a) as [|p ps] eqn:S;
          [by apply split_go_not_nil in S|].
        exists (set_artist_name r0 (Some p)). split; [|done].
        apply elem_of_app. left. rewrite fmap_cons. left.
      * exists r0. split; [|done]. apply elem_of_app. left. left.
    + destruct (IH In) as (r' & In' & E). exists r'. split; [|done].
      apply elem_of_app. by right.
Qed.

(** X11: on a view whose artist column is a column of strings ([object])
    the explode step returns a table and loses no song: the exploded table
    has at least as many rows as the view, and every row of the view is
    still there under one of the names of its artist string, with its
    streams unchanged. *)
Theorem df_artists_keeps_rows dt view :
  dt = dtype_object ->
  exists exploded,
    explode_artists dt view = Some exploded
    /\ (length view <= length exploded)%nat
    /\ forall r, r ∈ view ->
         exists r', r' ∈ exploded
                    /\ track_name r' = track_name r /\ streams r' = streams r.
Proof.
  intros ->. exists (df_artists view). split; [done|].
  split; [apply df_artists_length|apply df_artists_row_kept].
Qed.

Lemma df_artists_keeps_rows_witness :
  exists exploded,
    explode_artists dtype_object [Artists.song "A,_B" 10; Artists.song "C" 5]
      = Some exploded
    /\ (length [Artists.song "A,_B" 10; Artists.song "C" 5]
        <= length exploded)%nat
    /\ exists r', r' ∈ exploded
          /\ track_name r' = track_name (Artists.song "A,_B" 10)
          /\ streams r' = streams (Artists.song "A,_B" 10).
Proof.
  destruct (df_artists_keeps_rows dtype_object
              [Artists.song "A,_B" 10; Artists.song "C" 5] eq_refl)
    as (exploded & E & L & K).
  exists exploded. split; [exact E|]. split; [exact L|].
  apply K. left.
Defined.

(** ** More on the filter chain (lines 176-197) *)

Lemma filter_all {A} (f : A -> bool) l :
  Forall (fun x => f x = true) l -> List.filter f l = l.
Proof. induction 1 as [|x l E F IH]; simpl; [done|]. by rewrite E, IH. Qed.

Lemma filter_none {A} (f : A -> bool) l :
  Forall (fun x => f x = false) l -> List.filter f l = [].
Proof. induction 1 as [|x l E F IH]; simpl; [done|]. by rewrite E. Qed.

(** X12: filtering is idempotent and keeps the order of the base table: the
    view filtered again with the same selection is the view, and the view
    is a subsequence of the base table. *)
Theorem filtered_df_idempotent s df :
  filtered_df s (filtered_df s df) = filtered_df s df
  /\ filtered_df s df `sublist_of` df.
Proof.
  split.
  - rewrite !filtered_df_row_mask, filter_andb.
    apply filter_ext_mask. intros r. by destruct (row_mask s r).
  - rewrite filtered_df_filter. apply sublist_filter.
Qed.

(** X13: the order of the filters does not matter: the four steps applied
    in the reverse order give the same view, and filtering by two
    selections one after the other gives the same rows whichever comes
    first. *)
Theorem filter_order_irrelevant s s' df :
  base_filter s (key_filter s (mode_filter s (advanced_filter s df)))
    = filtered_df s df
  /\ filtered_df s (filtered_df s' df) = filtered_df s' (filtered_df s df).
Proof.
  split.
  - rewrite filtered_df_row_mask.
    unfold base_filter, key_filter, mode_filter, advanced_filter.
    assert (step : forall sel (col : track -> option string) t,
      (if negb (String.eqb sel Semua)
       then List.filter (fun r => cell_eqb (col r) sel) t else t)
      = List.filter (fun r => categorical_mask sel (col r)) t).
    { intros sel col t. unfold categorical_mask.
      destruct (String.eqb sel Semua); simpl; [by rewrite filter_true|done]. }
    rewrite !step, !filter_andb. apply filter_ext_mask.
    intros r. unfold row_mask.
    destruct (base_mask s r), (advanced_mask s r),
      (categorical_mask (Sidebar.selected_key s) (key r)),
      (categorical_mask (Sidebar.selected_mode s) (mode r)); done.
  - rewrite !filtered_df_row_mask, !filter_andb. apply filter_ext_mask.
    intros r. apply andb_comm.
Qed.

(** X14: the filter decides row by row: the view of two tables put
    together is the two views put together. *)
Theorem filtered_df_app s df1 df2 :
  filtered_df s (df1 ++ df2) = (filtered_df s df1 ++ filtered_df s df2)%list.
Proof. rewrite !filtered_df_row_mask. apply List.filter_app. Qed.

Lemma in_range_empty x rng : rng.2 < rng.1 -> ~ Spec.in_range x rng.
Proof. unfold Spec.in_range. lia. Qed.

(** X15: a range whose lower bound is above its upper bound matches no row:
    the view is empty and the page shows the warning. *)
Theorem empty_range_empty_view s f rng df :
  rng.2 < rng.1 ->
  filtered_df (Ranges.set_range f rng s) df = []
  /\ page (Ranges.set_range f rng s) df = [warning no_match_warning].
Proof.
  intros E.
  assert (V : filtered_df (Ranges.set_range f rng s) df = []).
  { rewrite filtered_df_row_mask. apply filter_none, Forall_forall.
    intros r _. apply not_true_is_false. rewrite row_mask_satisfies.
    unfold Spec.satisfies. pose proof (in_range_empty) as N.
    destruct f; simpl; intros (?&?&?&?&?&?&?); by eapply N. }
  split; [done|]. unfold page. by rewrite V.
Qed.

Lemma empty_range_empty_view_witness :
  let s := Ranges.set_range Ranges.Bpm (150, 90) Scenario.chosen in
  filtered_df s Scenario.table = []
  /\ page s Scenario.table = [warning no_match_warning].
Proof.
  apply (empty_range_empty_view Scenario.chosen Ranges.Bpm (150, 90)
           Scenario.table).
  simpl. lia.
Defined.

(** X16: when a key other than the sentinel is selected that no row of the
    table has, the view is empty and the page shows the warning. *)
Theorem unknown_key_empty_view s df :
  Sidebar.selected_key s <> Semua ->
  Forall (fun r => key r <> Some (Sidebar.selected_key s)) df ->
  filtered_df s df = [] /\ page s df = [warning no_match_warning].
Proof.
  intros N F.
  assert (V : filtered_df s df = []).
  { rewrite filtered_df_row_mask. apply filter_none.
    eapply Forall_impl; [exact F|]. intros r K.
    apply not_true_is_false. rewrite row_mask_satisfies.
    intros (_ & _ & [C|C] & _); done. }
  split; [done|]. unfold page. by rewrite V.
Qed.

Lemma unknown_key_empty_view_witness :
  let s := Scenario.with_key "G#" Scenario.chosen in
  filtered_df s Scenario.table = []
  /\ page s Scenario.table = [warning no_match_warning].
Proof.
  apply (unknown_key_empty_view (Scenario.with_key "G#" Scenario.chosen)
           Scenario.table).
  - simpl. unfold Semua. congruence.
  - repeat constructor; simpl; congruence.
Defined.

(** ** The widgets of the sidebar (lines 133-166) *)

Lemma foldl_min_spec a l :
  foldl Z.min a l ∈ a :: l /\ Forall (fun x => foldl Z.min a l <= x) (a :: l).
Proof.
  revert a. induction l as [|y l IH]; intros a; cbn [foldl].
  - split; [left|]. repeat constructor. lia.
  - destruct (IH (Z.min a y)) as [In F].
    apply Forall_cons in F as [Fm F]. split.
    + apply elem_of_cons in In as [->|In]; [|by do 2 right].
      destruct (Z.min_spec a y) as [[_ ->]|[_ ->]]; [left|right; left].
    + repeat (apply Forall_cons; split); [lia|lia|done].
Qed.

Lemma foldl_max_spec a l :
  foldl Z.max a l ∈ a :: l /\ Forall (fun x => x <= foldl Z.max a l) (a :: l).
Proof.
  revert a. induction l as [|y l IH]; intros a; cbn [foldl].
  - split; [left|]. repeat constructor. lia.
  - destruct (IH (Z.max a y)) as [In F].
    apply Forall_cons in F as [Fm F]. split.
    + apply elem_of_cons in In as [->|In]; [|by do 2 right].
      destruct (Z.max_spec a y) as [[_ ->]|[_ ->]]; [right; left|left].
    + repeat (apply Forall_cons; split); [lia|lia|done].
Qed.

Lemma column_min_spec col m :
  Widgets.column_min col = Some m -> m ∈ col /\ Forall (fun x => m <= x) col.
Proof.
  destruct col as [|a l]; [discriminate|]. intros [= <-]. apply foldl_min_spec.
Qed.

Lemma column_max_spec col m :
  Widgets.column_max col = Some m -> m ∈ col /\ Forall (fun x => x <= m) col.
Proof.
  destruct col as [|a l]; [discriminate|]. intros [= <-]. apply foldl_max_spec.
Qed.

(** The initial ranges of year and tempo contain every row. *)
Lemma initial_selection_base df s :
  Widgets.initial_selection df = Some s ->
  Sidebar.selected_key s = Semua /\ Sidebar.selected_mode s = Semua
  /\ Sidebar.danceability s = (0, 100) /\ Sidebar.energy s = (0, 100)
  /\ Sidebar.valence s = (0, 100)
  /\ Forall (fun r => base_mask s r = true) df.
Proof.
  unfold Widgets.initial_selection. intros E.
  apply bind_Some in E as (y0 & Y0 & E). apply bind_Some in E as (y1 & Y1 & E).
  apply bind_Some in E as (b0 & B0 & E). apply bind_Some in E as (b1 & B1 & E).
  injection E as <-. simpl. repeat split.
  apply column_min_spec in Y0 as [_ Y0]. apply column_max_spec in Y1 as [_ Y1].
  apply column_min_spec in B0 as [_ B0]. apply column_max_spec in B1 as [_ B1].
  rewrite Forall_fmap in Y0, Y1, B0, B1.
  rewrite Forall_forall in Y0, Y1, B0, B1. apply Forall_forall. intros r In.
  unfold base_mask, between. simpl.
  specialize (Y0 r In). specialize (Y1 r In).
  specialize (B0 r In). specialize (B1 r In). simpl in *.
  rewrite !andb_true_iff, !Z.leb_le. lia.
Qed.

Lemma advanced_mask_percentages s r :
  Sidebar.danceability s = (0, 100) -> Sidebar.energy s = (0, 100) ->
  Sidebar.valence s = (0, 100) ->
  advanced_mask s r = true <-> percentages_in_range r.
Proof.
  intros D E V. unfold advanced_mask, between, percentages_in_range.
  rewrite D, E, V. simpl. rewrite !andb_true_iff, !Z.leb_le. tauto.
Qed.

(** X17: on an empty table the script has no initial selection, because
    the minimum of an empty column cannot be converted to an integer; on any
    other table the view under the initial selection holds exactly the rows
    whose three percentages lie between 0 and 100, so it is the whole table
    when all rows are such. *)
Theorem initial_selection_shows_table df :
  (Widgets.initial_selection df = None <-> df = [])
  /\ forall s, Widgets.initial_selection df = Some s ->
       filtered_df s df = filter percentages_in_range df
       /\ (Forall percentages_in_range df -> filtered_df s df = df).
Proof.
  split.
  - destruct df as [|r df]; [done|]. split; discriminate.
  - intros s E.
    destruct (initial_selection_base df s E) as (K & M & D & En & V & B).
    assert (F : filtered_df s df = filter percentages_in_range df).
    { rewrite filtered_df_row_mask.
      rewrite <- (filter_mask_decide (advanced_mask s) percentages_in_range)
        by (intros r; by apply advanced_mask_percentages).
      rewrite Forall_forall in B.
      clear E. induction df as [|r df IH]; [done|]. simpl.
      unfold row_mask at 1. rewrite K, M, !categorical_mask_Semua.
      rewrite (B r) by left. simpl.
      rewrite IH; [done|]. intros r' In. apply B. by right. }
    split; [done|]. intros P. rewrite F.
    clear -P. induction P as [|r df p P IH]; [done|].
    rewrite filter_cons. destruct (decide (percentages_in_range r)); [|done].
    by rewrite IH.
Qed.

Lemma initial_selection_shows_table_witness :
  exists s, Widgets.initial_selection Scenario.table = Some s
            /\ filtered_df s Scenario.table = Scenario.table.
Proof.
  eexists. split; [reflexivity|].
  apply (proj2 (initial_selection_shows_table Scenario.table) _ eq_refl).
  repeat constructor; simpl; lia.
Defined.

Lemma string_leb_trans x y z :
  String.leb x y = true -> String.leb y z = true -> String.leb x z = true.
Proof.
  intros A B. apply Is_true_true.
  apply Is_true_true in A, B.
  exact (transitivity (R := String.le) A B).
Qed.

Lemma elem_of_options col k : k ∈ Widgets.options col <-> Some k ∈ col.
Proof.
  unfold Widgets.options.
  rewrite elem_of_sort_by, elem_of_drop_duplicates, list_elem_of_omap.
  split; [intros (x & In & <-); done|]. intros In. by exists (Some k).
Qed.

Lemma options_NoDup col : NoDup (Widgets.options col).
Proof.
  unfold Widgets.options. rewrite sort_by_Permutation.
  apply NoDup_drop_duplicates.
Qed.

Lemma options_sorted col :
  StronglySorted (fun a b => String.leb a b = true) (Widgets.options col).
Proof. apply sort_by_sorted; [apply String.leb_total|apply string_leb_trans]. Qed.

(** X18: the select boxes offer the sentinel first and then the distinct
    keys (modes) that occur in the table, each once, in ascending order. *)
Theorem select_box_options df :
  (forall k, k ∈ Widgets.key_options df <-> exists r, r ∈ df /\ key r = Some k)
  /\ (forall m, m ∈ Widgets.mode_options df
                <-> exists r, r ∈ df /\ mode r = Some m)
  /\ NoDup (Widgets.key_options df) /\ NoDup (Widgets.mode_options df)
  /\ StronglySorted (fun a b => String.leb a b = true) (Widgets.key_options df)
  /\ StronglySorted (fun a b => String.leb a b = true) (Widgets.mode_options df)
  /\ head (Widgets.all_keys df) = Some Semua
  /\ head (Widgets.all_modes df) = Some Semua.
Proof.
  unfold Widgets.key_options, Widgets.mode_options.
  repeat split; try apply options_NoDup; try apply options_sorted.
  - rewrite elem_of_options, list_elem_of_fmap. intros (r & E & In). by exists r.
  - rewrite elem_of_options, list_elem_of_fmap. intros (r & In & E). by exists r.
  - rewrite elem_of_options, list_elem_of_fmap. intros (r & E & In). by exists r.
  - rewrite elem_of_options, list_elem_of_fmap. intros (r & In & E). by exists r.
Qed.

(** X19: picking an offered key other than the sentinel, the other widgets
    left as they start, shows exactly the rows with that key among those
    whose percentages lie between 0 and 100; when all rows are such the
    view is not empty. *)
Theorem offered_key_matches df s k :
  Widgets.initial_selection df = Some s ->
  k ∈ Widgets.key_options df -> k <> Semua ->
  filtered_df (Widgets.pick_key k s) df
    = filter (fun r => key r = Some k /\ percentages_in_range r) df
  /\ (Forall percentages_in_range df ->
      filtered_df (Widgets.pick_key k s) df <> []).
Proof.
  intros E O N.
  destruct (initial_selection_base df s E) as (_ & M & D & En & V & B).
  assert (F : filtered_df (Widgets.pick_key k s) df
              = filter (fun r => key r = Some k /\ percentages_in_range r) df).
  { rewrite filtered_df_row_mask.
    rewrite Forall_forall in B. clear E O.
    induction df as [|r df IH]; [done|].
    rewrite filter_cons. cbn [List.filter].
    rewrite IH by (intros r' In; apply B; by right). clear IH.
    assert (R : row_mask (Widgets.pick_key k s) r = true
                <-> key r = Some k /\ percentages_in_range r).
    { unfold row_mask. rewrite !andb_true_iff.
      change (base_mask (Widgets.pick_key k s) r) with (base_mask s r).
      change (advanced_mask (Widgets.pick_key k s) r) with (advanced_mask s r).
      rewrite (B r) by left. simpl Sidebar.selected_key.
      simpl Sidebar.selected_mode. rewrite M, categorical_mask_Semua.
      rewrite categorical_mask_spec, advanced_mask_percentages by done.
      unfold Spec.categorical. tauto. }
    destruct (decide (key r = Some k /\ percentages_in_range r)) as [Y|Y].
    - apply R in Y. by rewrite Y.
    - destruct (row_mask (Widgets.pick_key k s) r) eqn:Q; [|done].
      exfalso. by apply Y, R. }
  split; [done|]. intros P. rewrite F.
  apply elem_of_options, list_elem_of_fmap in O as (r & K & In).
  intros Z.
  assert (r ∈ filter (fun r => key r = Some k /\ percentages_in_range r) df)
    as I.
  { apply list_elem_of_filter. split; [|done]. split; [done|].
    by apply (proj1 (Forall_forall _ _) P). }
  rewrite Z in I. by apply elem_of_nil in I.
Qed.

Lemma offered_key_matches_witness :
  exists s, Widgets.initial_selection Scenario.table = Some s
    /\ filtered_df (Widgets.pick_key "A" s) Scenario.table
       = filter (fun r => key r = Some "A" /\ percentages_in_range r)
           Scenario.table.
Proof.
  eexists. split; [reflexivity|].
  apply (offered_key_matches Scenario.table _ "A" eq_refl).
  - apply elem_of_options. vm_compute. left.
  - unfold Semua. congruence.
Defined.

(** ** More on the loader (lines 77-118) *)

Lemma Forall2_elem_of_left {A B} (P : A -> B -> Prop) l k x :
  Forall2 P l k -> x ∈ l -> exists y, y ∈ k /\ P x y.
Proof.
  induction 1 as [|x' y l k p _ IH]; intros In.
  - by apply elem_of_nil in In.
  - apply elem_of_cons in In as [->|In].
    + exists y. split; [left|done].
    + destruct (IH In) as (y' & ? & ?). exists y'. split; [by right|done].
Qed.

Lemma drop_duplicates_from_seen {A} `{EqDecision A} (seen l : list A) :
  Forall (fun x => x ∈ seen) l -> drop_duplicates_from seen l = [].
Proof.
  induction 1 as [|x l In F IH]; [done|]. simpl.
  by destruct (decide (x ∈ seen)).
Qed.

Lemma drop_duplicates_from_app {A} `{EqDecision A} (seen l extra : list A) :
  Forall (fun x => x ∈ seen \/ x ∈ l) extra ->
  drop_duplicates_from seen (l ++ extra) = drop_duplicates_from seen l.
Proof.
  revert seen. induction l as [|y l IH]; intros seen F.
  - simpl. apply drop_duplicates_from_seen.
    eapply Forall_impl; [exact F|]. intros x [?|N]; [done|].
    by apply elem_of_nil in N.
  - cbn [app drop_duplicates_from]. destruct (decide (y ∈ seen)) as [S|S].
    + apply IH. eapply Forall_impl; [exact F|].
      intros x [?|In]; [by left|].
      apply elem_of_cons in In as [->|?]; [by left|by right].
    + f_equal. apply IH. eapply Forall_impl; [exact F|].
      intros x [?|In]; [left; by right|].
      apply elem_of_cons in In as [->|?]; [left; left|by right].
Qed.

Lemma mapM_app {A B} (f : A -> option B) l1 l2 :
  mapM f (l1 ++ l2)
  = k1 ← mapM f l1; k2 ← mapM f l2; Some (k1 ++ k2)%list.
Proof.
  induction l1 as [|x l1 IH]; simpl.
  - by destruct (mapM f l2).
  - destruct (f x); simpl; [|done]. rewrite IH.
    destruct (mapM f l1); simpl; [|done]. by destruct (mapM f l2).
Qed.




Section LoaderMore.
Context {float64 : Type}.
Variable to_numeric : string -> option float64.
Variable astype_int64 : float64 -> option Z.
Variable to_datetime : Z -> Z -> Z -> option date.

Local Abbreviation coerce_streams' := (coerce_streams to_numeric).
Local Abbreviation typed_row' := (typed_row astype_int64 to_datetime).
Local Abbreviation normalize' := (normalize to_numeric astype_int64 to_datetime).
Local Abbreviation load_data' := (load_data to_numeric astype_int64 to_datetime).

Lemma typed_row_None raw f :
  typed_row' (raw, f) = None <-> astype_int64 f = None.
Proof.
  unfold typed_row. simpl. destruct (astype_int64 f); simpl; split; done.
Qed.

Lemma typed_row_columns row r :
  typed_row' row = Some r ->
  track_name r = raw_track_name row.1
  /\ artist_name r = raw_artist_name row.1
  /\ released_year r = raw_released_year row.1
  /\ bpm r = raw_bpm row.1 /\ key r = raw_key row.1 /\ mode r = raw_mode row.1
  /\ danceability r = raw_danceability row.1
  /\ valence r = raw_valence row.1 /\ energy r = raw_energy row.1
  /\ released_date r
     = to_datetime (raw_released_year row.1) (raw_released_month row.1)
         (raw_released_day row.1).
Proof.
  unfold typed_row. intros E.
  apply bind_Some in E as (n & _ & [= <-]). simpl. repeat split.
Qed.

Lemma coerce_streams_nil raws :
  coerce_streams' raws = []
  <-> Forall (fun raw => to_numeric (raw_streams raw) = None) raws.
Proof.
  split.
  - intros E. apply Forall_forall. intros raw In.
    destruct (to_numeric (raw_streams raw)) as [f|] eqn:N; [|done].
    assert ((raw, f) ∈ coerce_streams' raws) as C
      by by apply (elem_of_coerce_streams to_numeric).
    rewrite E in C. by apply elem_of_nil in C.
  - intros F. destruct (coerce_streams' raws) as [|[raw f] l] eqn:E; [done|].
    assert ((raw, f) ∈ coerce_streams' raws) as C by (rewrite E; left).
    apply (elem_of_coerce_streams to_numeric) in C as [In N].
    rewrite (proj1 (Forall_forall _ _) F raw In) in N. discriminate.
Qed.

(** The loader fails on a file without a numeric [streams] cell and on a
    numeric value that cannot be converted, and on nothing else. *)
Lemma normalize_None raws :
  normalize' raws = None
  <-> Forall (fun raw => to_numeric (raw_streams raw) = None) raws
      \/ exists raw f, raw ∈ raws /\ to_numeric (raw_streams raw) = Some f
                       /\ astype_int64 f = None.
Proof.
  unfold normalize.
  destruct (mapM typed_row' (coerce_streams' raws)) as [rows|] eqn:M; simpl.
  - pose proof (length_mapM _ _ _ M) as L. destruct rows as [|r rows].
    + split; [intros _; left|done]. apply coerce_streams_nil.
      by destruct (coerce_streams' raws).
    + split; [done|]. intros [F|(raw & f & In & N & T)].
      * apply coerce_streams_nil in F. rewrite F in L. discriminate.
      * assert (mapM typed_row' (coerce_streams' raws) = None) as M'.
        { apply mapM_None, Exists_exists. exists (raw, f). split.
          - by apply (elem_of_coerce_streams to_numeric).
          - by apply typed_row_None. }
        congruence.
  - split; [|done]. intros _. right.
    apply mapM_None, Exists_exists in M as ([raw f] & In & T).
    apply (elem_of_coerce_streams to_numeric) in In as [In N].
    apply typed_row_None in T. by exists raw, f.
Qed.

(** X20: the table the loader returns has no two equal rows, and every
    record of the file with a numeric [streams] cell has its typed copy in
    it. *)
Theorem loaded_table_distinct_complete read_csv path raws df :
  read_csv path = Some raws ->
  load_data' read_csv path = Loaded df ->
  NoDup df
  /\ forall raw f, raw ∈ raws -> to_numeric (raw_streams raw) = Some f ->
       exists r, typed_row' (raw, f) = Some r /\ r ∈ df.
Proof.
  intros F L.
  apply (load_data_Loaded to_numeric astype_int64 to_datetime) in L
    as (raws' & F' & N).
  assert (raws' = raws) as -> by congruence.
  apply (normalize_Some to_numeric astype_int64 to_datetime) in N
    as (rows & M & _ & ->).
  split; [apply NoDup_drop_duplicates|].
  intros raw f In Nm. apply mapM_Some in M.
  assert ((raw, f) ∈ coerce_streams' raws) as C
    by by apply (elem_of_coerce_streams to_numeric).
  destruct (Forall2_elem_of_left _ _ _ _ M C) as (r & Inr & T).
  exists r. split; [done|]. by apply elem_of_drop_duplicates.
Qed.

(** X21: the loader reports a missing file with the message that names the
    path; it raises exactly when the file exists and either none of its
    records has a numeric [streams] cell, so that no row is left, or some
    numeric [streams] value cannot be converted to an integer; hence a
    table it returns is never empty. *)
Theorem load_data_outcomes read_csv path :
  (forall e, load_data' read_csv path = DataUnavailable e
             <-> read_csv path = None /\ e = not_found_error path)
  /\ (load_data' read_csv path = Raised
      <-> exists raws,
            read_csv path = Some raws
            /\ (Forall (fun raw => to_numeric (raw_streams raw) = None) raws
                \/ exists raw f,
                     raw ∈ raws /\ to_numeric (raw_streams raw) = Some f
                     /\ astype_int64 f = None))
  /\ (forall df, load_data' read_csv path = Loaded df -> df <> []).
Proof.
  unfold load_data. destruct (read_csv path) as [raws|]; split; [| split | |split].
  - intros e. destruct (normalize' raws); split; try done; by intros [? _].
  - destruct (normalize' raws) as [df|] eqn:N.
    + split; [done|]. intros (raws' & [= <-] & H).
      apply normalize_None in H. congruence.
    + split; [|done]. intros _. exists raws. split; [done|].
      by apply normalize_None.
  - intros df. destruct (normalize' raws) as [df'|] eqn:N; [|done].
    intros [= <-].
    apply (normalize_Some to_numeric astype_int64 to_datetime) in N
      as (rows & _ & NE & ->).
    destruct rows as [|r rows]; [done|]. unfold drop_duplicates. simpl.
    destruct (decide (r ∈ [])) as [I|_]; [by apply elem_of_nil in I|done].
  - intros e. split; [intros [= <-]; done|]. by intros [_ ->].
  - split; [done|]. by intros (? & ? & _).
  - done.
Qed.

(** X22: records that repeat records of the file add nothing: a file with
    such records appended loads to the same result. *)
Theorem repeated_records_ignored read_csv read_csv' path raws extra :
  read_csv path = Some raws ->
  read_csv' path = Some (raws ++ extra)%list ->
  Forall (fun raw => raw ∈ raws) extra ->
  load_data' read_csv' path = load_data' read_csv path.
Proof.
  intros F F' R. unfold load_data. rewrite F, F'.
  assert (N : normalize' (raws ++ extra) = normalize' raws); [|by rewrite N].
  unfold normalize, coerce_streams. rewrite omap_app, mapM_app.
  fold (coerce_streams' raws). fold (coerce_streams' extra).
  destruct (mapM typed_row' (coerce_streams' raws)) as [rows|] eqn:M; [|done].
  simpl.
  assert (E : exists rows', mapM typed_row' (coerce_streams' extra) = Some rows'
                            /\ Forall (fun r => r ∈ rows) rows').
  { apply mapM_Some in M.
    assert (Forall (fun x => exists r, typed_row' x = Some r /\ r ∈ rows)
              (coerce_streams' extra)) as G.
    { apply Forall_forall. intros [raw f] In.
      apply (elem_of_coerce_streams to_numeric) in In as [In Nm].
      assert ((raw, f) ∈ coerce_streams' raws) as C.
      { apply (elem_of_coerce_streams to_numeric). split; [|done].
        by apply (proj1 (Forall_forall _ _) R). }
      destruct (Forall2_elem_of_left _ _ _ _ M C) as (r & ? & ?). by exists r. }
    clear -G. induction G as [|x l (r & T & In) G (rows' & M' & F)].
    - by exists [].
    - exists (r :: rows'). simpl. rewrite T, M'. simpl. split; [done|].
      by constructor. }
  destruct E as (rows' & -> & S). simpl.
  destruct rows as [|r rows].
  - destruct rows' as [|r' rows']; [done|].
    apply Forall_cons in S as [I _]. by apply elem_of_nil in I.
  - cbn [app]. f_equal.
    unfold drop_duplicates. apply (drop_duplicates_from_app [] (r :: rows)).
    eapply Forall_impl; [exact S|]. intros r'. by right.
Qed.
End LoaderMore.

Lemma load_data_outcomes_witness :
  [Files.loaded "first" 141381703; Files.loaded "third" 133716286] <> [].
Proof.
  apply (proj2 (proj2 (load_data_outcomes int_literal int_astype calendar_date
                         (Files.disk Files.with_text_in_streams) Files.path))).
  reflexivity.
Defined.

(** A file none of whose records has a numeric [streams] cell, and a file
    without records, make the loader raise. *)
Example load_csv_no_numeric_streams :
  load_csv (Files.disk [Files.line "second" "N/A"]) Files.path = Raised
  /\ load_csv (Files.disk []) Files.path = Raised.
Proof. split; reflexivity. Qed.

Lemma loaded_table_distinct_complete_witness :
  NoDup [Files.loaded "first" 141381703; Files.loaded "third" 133716286]
  /\ exists r, typed_row int_astype calendar_date
                 (Files.line "third" "133716286", 133716286) = Some r
               /\ r ∈ [Files.loaded "first" 141381703;
                       Files.loaded "third" 133716286].
Proof.
  destruct (loaded_table_distinct_complete int_literal int_astype calendar_date
              (Files.disk Files.with_text_in_streams) Files.path
              Files.with_text_in_streams
              [Files.loaded "first" 141381703; Files.loaded "third" 133716286]
              eq_refl eq_refl) as [N C].
  split; [exact N|].
  apply (C (Files.line "third" "133716286") 133716286); [|reflexivity].
  do 2 right. left.
Defined.

Lemma repeated_records_ignored_witness :
  load_csv (Files.disk (Files.with_text_in_streams
                          ++ [Files.line "first" "141381703"])%list) Files.path
  = load_csv (Files.disk Files.with_text_in_streams) Files.path.
Proof.
  apply (repeated_records_ignored int_literal int_astype calendar_date
           (Files.disk Files.with_text_in_streams)
           (Files.disk (Files.with_text_in_streams
                          ++ [Files.line "first" "141381703"])%list)
           Files.path Files.with_text_in_streams
           [Files.line "first" "141381703"]).
  - reflexivity.
  - reflexivity.
  - repeat constructor.
Defined.

(** ** Column names (lines 87-102) *)

Lemma normalize_char_fixed c :
  Columns.space_to_underscore
    (Columns.lower_char (Columns.space_to_underscore (Columns.lower_char c)))
  = Columns.space_to_underscore (Columns.lower_char c).
Proof.
  destruct c as [[] [] [] [] [] [] [] []]; vm_compute; reflexivity.
Qed.

Lemma normalize_char_clean c :
  let c' := Columns.space_to_underscore (Columns.lower_char c) in
  c' <> " "%char /\ Columns.is_upper_ascii c' = false.
Proof.
  destruct c as [[] [] [] [] [] [] [] []]; vm_compute; split; congruence.
Qed.

Lemma normalize_column_idempotent col :
  Columns.normalize_column (Columns.normalize_column col)
  = Columns.normalize_column col.
Proof.
  unfold Columns.normalize_column.
  induction col as [|c col IH]; [done|].
  cbn [Columns.map_chars]. by rewrite normalize_char_fixed, IH.
Qed.

Lemma normalize_column_clean col c :
  c ∈ Columns.chars (Columns.normalize_column col) ->
  c <> " "%char /\ Columns.is_upper_ascii c = false.
Proof.
  unfold Columns.normalize_column.
  induction col as [|d col IH]; cbn [Columns.map_chars Columns.chars].
  - intros In. by apply elem_of_nil in In.
  - intros In. apply elem_of_cons in In as [->|In]; [|by apply IH].
    apply normalize_char_clean.
Qed.

(** A name the map renames becomes one of the eight new names. *)
Lemma lookup_name_target col new :
  Columns.lookup_name Columns.rename_map col = Some new ->
  new ∈ Columns.rename_map.*2.
Proof.
  unfold Columns.rename_map. cbn [Columns.lookup_name].
  repeat (destruct (String.eqb col _);
          [intros [= <-]; cbn; set_solver by idtac|]).
  discriminate.
Qed.

Lemma rename_target_fixed new :
  new ∈ Columns.rename_map.*2 ->
  Columns.rename (Columns.normalize_column new) = new
  /\ forall c, c ∈ Columns.chars new ->
       c <> " "%char /\ Columns.is_upper_ascii c = false.
Proof.
  intros In. cbn in In.
  repeat (apply elem_of_cons in In as [->|In];
          [split; [reflexivity|];
           intros c Hc; vm_compute in Hc;
           repeat (apply elem_of_cons in Hc as [->|Hc];
                   [vm_compute; split; congruence|]);
           by apply elem_of_nil in Hc|]).
  by apply elem_of_nil in In.
Qed.

(** X24: cleaning the header is idempotent, and no cleaned name contains a
    space or a capital letter A-Z: cleaning names that are clean already
    changes nothing. *)
Theorem clean_columns_idempotent cols :
  Columns.clean_columns (Columns.clean_columns cols)
    = Columns.clean_columns cols
  /\ forall col c, col ∈ Columns.clean_columns cols ->
       c ∈ Columns.chars col ->
       c <> " "%char /\ Columns.is_upper_ascii c = false.
Proof.
  assert (S : forall col,
    let col' := Columns.rename (Columns.normalize_column col) in
    Columns.rename (Columns.normalize_column col') = col'
    /\ forall c, c ∈ Columns.chars col' ->
         c <> " "%char /\ Columns.is_upper_ascii c = false).
  { intros col.
    destruct (Columns.lookup_name Columns.rename_map
                (Columns.normalize_column col)) as [new|] eqn:L.
    - assert (E : Columns.rename (Columns.normalize_column col) = new)
        by (unfold Columns.rename; by rewrite L).
      simpl. rewrite E. apply rename_target_fixed.
      by apply lookup_name_target in L.
    - assert (E : Columns.rename (Columns.normalize_column col)
                  = Columns.normalize_column col)
        by (unfold Columns.rename; by rewrite L).
      simpl. rewrite E. split; [|apply normalize_column_clean].
      rewrite normalize_column_idempotent. exact E. }
  unfold Columns.clean_columns. split.
  - rewrite <- !list_fmap_compose. apply list_fmap_ext.
    intros _ col _. apply S.
  - intros col c In. rewrite <- list_fmap_compose in In.
    apply list_elem_of_fmap in In as (col0 & -> & _). apply S.
Qed.

Lemma clean_columns_idempotent_witness :
  "_"%char <> " "%char /\ Columns.is_upper_ascii "_" = false.
Proof.
  apply (proj2 (clean_columns_idempotent
                  ["Track Name"; "Artist(s) Name"; "Energy %"; "BPM"])
           "artist_name" "_"%char).
  - vm_compute. right. left.
  - vm_compute. do 6 right. left.
Defined.

(** ** Counting groups of any label type *)

Lemma Zsum_cons x l : Zsum (x :: l) = x + Zsum l.
Proof. reflexivity. Qed.

Lemma Zsum_Permutation l1 l2 : l1 ≡ₚ l2 -> Zsum l1 = Zsum l2.
Proof. unfold Zsum. induction 1; simpl; lia. Qed.

Section CountProperties.
Context {K : Type} `{EqDecision K} (eqb : K -> K -> bool).
Hypothesis eqb_eq : forall x y, eqb x y = true <-> x = y.
Context {R : Type} (label : R -> option K).

Let count : R -> option Z -> Z := fun _ old => default 0 old + 1.

Lemma labelled_filter_with k rows :
  List.filter (labelled eqb label k) rows
  = filter (fun row => label row = Some k) rows.
Proof.
  apply filter_mask_decide. intros row. unfold labelled.
  destruct (label row) as [k'|].
  - rewrite eqb_eq. split; congruence.
  - split; discriminate.
Qed.

Lemma elem_of_count_tally k c rows :
  (k, c) ∈ tally_with eqb label count rows
  <-> 0 < c
      /\ c = Z.of_nat (length (filter (fun row => label row = Some k) rows)).
Proof.
  rewrite (elem_of_tally_with eqb eqb_eq). unfold count.
  rewrite group_value_count, labelled_filter_with.
  destruct (filter (fun row => label row = Some k) rows) as [|x l]; simpl length.
  - split; [done|]. intros [? ->]. simpl in *. lia.
  - split.
    + intros [= <-]. split; lia.
    + intros [_ ->]. done.
Qed.

Lemma upsert_count_sum r k m :
  Zsum (upsert_with eqb (count r) k m).*2 = Zsum m.*2 + 1.
Proof.
  induction m as [|[k' v] m IH]; cbn [upsert_with].
  - unfold count, Zsum. simpl. lia.
  - destruct (eqb k k'); rewrite !fmap_cons, !Zsum_cons; cbn [snd].
    + unfold count. simpl. lia.
    + rewrite IH. lia.
Qed.

(** The counts add up to the number of rows that have a label. *)
Lemma count_tally_sum rows :
  Zsum (tally_with eqb label count rows).*2
  = Z.of_nat (length (omap label rows)).
Proof.
  unfold tally_with.
  assert (G : forall m,
    Zsum (foldl (tally_step_with eqb label count) m rows).*2
    = Zsum m.*2 + Z.of_nat (length (omap label rows))).
  { induction rows as [|row rows IH]; intros m.
    - simpl. lia.
    - cbn [foldl]. rewrite IH. unfold tally_step_with.
      cbn [omap list_omap]. fold (omap label rows).
      destruct (label row) as [k|]; [|done].
      rewrite upsert_count_sum. simpl length. lia. }
  rewrite G. done.
Qed.

Lemma count_tally_nil rows :
  tally_with eqb label count rows = []
  <-> Forall (fun row => label row = None) rows.
Proof.
  split.
  - intros E. apply Forall_forall. intros row In.
    destruct (label row) as [k|] eqn:L; [|done]. exfalso.
    assert ((k, Z.of_nat (length (filter (fun row => label row = Some k) rows)))
            ∈ tally_with eqb label count rows) as I.
    { apply elem_of_count_tally. split; [|done].
      assert (row ∈ filter (fun row => label row = Some k) rows) as J
        by by apply list_elem_of_filter.
      destruct (filter (fun row => label row = Some k) rows);
        [by apply elem_of_nil in J|simpl; lia]. }
    rewrite E in I. by apply elem_of_nil in I.
  - intros F. destruct (tally_with eqb label count rows) as [|[k c] m] eqn:E;
      [done|]. exfalso.
    assert ((k, c) ∈ tally_with eqb label count rows) as I
      by (rewrite E; left).
    apply elem_of_count_tally in I as [P ->].
    assert (filter (fun row => label row = Some k) rows = []) as Z'.
    { clear -F. induction F as [|row rows N F IH]; [done|].
      rewrite filter_cons. destruct (decide (label row = Some k)); [|done].
      congruence. }
    rewrite Z' in P. simpl in P. lia.
Qed.
End CountProperties.

Lemma StronglySorted_strict (s : list (Z * Z)) :
  NoDup s.*1 ->
  StronglySorted (fun a b => a.1 <= b.1) s ->
  StronglySorted (fun a b => a.1 < b.1) s.
Proof.
  intros N S. induction S as [|x l S IH F]; [constructor|].
  rewrite fmap_cons in N. apply NoDup_cons in N as [Nx N].
  constructor; [by apply IH|].
  apply Forall_forall. intros y In.
  pose proof (proj1 (Forall_forall _ _) F y In) as L. cbv beta in L.
  assert (x.1 <> y.1); [|lia].
  intros E. apply Nx. rewrite E. apply list_elem_of_fmap. by exists y.
Qed.

(** ** Songs per year and per month (lines 382 and 390) *)

(** X26: the series of songs per year lists every year of release that
    occurs in the view once, in ascending order, with the number of rows of
    that year, which is positive; the counts add up to the number of rows.
    The series of songs per month does so for the months. *)
Theorem songs_per_year_counts view :
  (forall y c, (y, c) ∈ songs_per_year view
     <-> 0 < c
         /\ c = Z.of_nat (length (filter (fun r => released_year r = y) view)))
  /\ StronglySorted (fun a b => a.1 < b.1) (songs_per_year view)
  /\ Zsum (songs_per_year view).*2 = Z.of_nat (length view)
  /\ (forall m c, (m, c) ∈ songs_per_month view
        <-> 0 < c
            /\ c = Z.of_nat
                     (length (filter (fun r => released_month r = m) view)))
  /\ StronglySorted (fun a b => a.1 < b.1) (songs_per_month view)
  /\ Zsum (songs_per_month view).*2 = Z.of_nat (length view).
Proof.
  assert (G : forall col : list Z,
    (forall y c, (y, c) ∈ sort_index (int_value_counts col)
       <-> 0 < c /\ c = Z.of_nat (length (filter (fun x => x = y) col)))
    /\ StronglySorted (fun a b => a.1 < b.1) (sort_index (int_value_counts col))
    /\ Zsum (sort_index (int_value_counts col)).*2 = Z.of_nat (length col)).
  { intros col. unfold sort_index, int_value_counts. split; [|split].
    - intros y c. rewrite !elem_of_sort_by.
      rewrite (elem_of_count_tally Z.eqb Z.eqb_eq Some).
      assert (filter (fun row => Some row = Some y) col
              = filter (fun x => x = y) col) as ->; [|done].
      apply list_filter_iff. intros x. split; congruence.
    - apply StronglySorted_strict.
      + rewrite !sort_by_Permutation.
        apply tally_with_labels_NoDup, Z.eqb_eq.
      + eapply StronglySorted_impl; [|apply sort_by_sorted].
        * intros a b. simpl. by rewrite Z.leb_le.
        * intros a b. rewrite !Z.leb_le. lia.
        * intros a b c. rewrite !Z.leb_le. lia.
    - rewrite (Zsum_Permutation _ (tally_with Z.eqb Some count_up col).*2)
        by by rewrite !sort_by_Permutation.
      rewrite (count_tally_sum Z.eqb Some). f_equal.
      clear. induction col as [|x col IH]; [done|]. simpl. f_equal. exact IH. }
  assert (L : forall (g : track -> Z) y,
    length (filter (fun x => x = y) (g <$> view))
    = length (filter (fun r => g r = y) view)).
  { intros g y. induction view as [|r rows IH]; [done|].
    rewrite fmap_cons, !filter_cons.
    destruct (decide (g r = y)); simpl; by rewrite IH. }
  unfold songs_per_year, songs_per_month.
  destruct (G (released_year <$> view)) as (Y1 & Y2 & Y3).
  destruct (G (released_month <$> view)) as (M1 & M2 & M3).
  rewrite length_fmap in Y3, M3.
  split; [|split; [done|split; [done|split; [|split; done]]]].
  - intros y c. by rewrite Y1, L.
  - intros m c. by rewrite M1, L.
Qed.

(** ** The most streamed songs (lines 300 and 311) *)

Lemma by_streams_desc_total x y :
  by_streams_desc x y = true \/ by_streams_desc y x = true.
Proof. unfold by_streams_desc. rewrite !Z.leb_le. lia. Qed.

Lemma by_streams_desc_trans x y z :
  by_streams_desc x y = true -> by_streams_desc y z = true ->
  by_streams_desc x z = true.
Proof. unfold by_streams_desc. rewrite !Z.leb_le. lia. Qed.

(** X25: the [n] most streamed songs, as the bar chart takes them with
    [n = 10] and the scatter plot with [n = 100], are [min n] (number of
    rows) rows of the view, each taken at most as often as it is there, in
    descending order of streams, and no row left out has more streams
    than a row taken. *)
Theorem largest_by_streams_top n view :
  length (largest_by_streams n view) = min n (length view)
  /\ largest_by_streams n view ⊆+ view
  /\ StronglySorted (fun x y => streams y <= streams x)
       (largest_by_streams n view)
  /\ forall x y, x ∈ largest_by_streams n view -> y ∈ view ->
       y ∉ largest_by_streams n view -> streams y <= streams x.
Proof.
  unfold largest_by_streams. split; [|split; [|split]].
  - by rewrite length_take, sort_by_length.
  - rewrite <- (sort_by_Permutation by_streams_desc view) at 2.
    apply sublist_submseteq, sublist_take.
  - eapply StronglySorted_impl;
      [|apply sort_by_take_sorted;
        [apply by_streams_desc_total|apply by_streams_desc_trans]].
    intros x y. unfold by_streams_desc. by rewrite Z.leb_le.
  - intros x y Hx Hy Ny.
    apply (elem_of_sort_by by_streams_desc) in Hy.
    rewrite <- (take_drop n (sort_by by_streams_desc view)) in Hy.
    apply elem_of_app in Hy as [Hy|Hy]; [done|].
    apply Z.leb_le.
    exact (sort_by_take_drop by_streams_desc by_streams_desc_total
             by_streams_desc_trans n view x y Hx Hy).
Qed.

Lemma largest_by_streams_top_witness :
  let view := [Artists.song "A" 10; Artists.song "B" 50; Artists.song "C" 5] in
  streams (Artists.song "A" 10) <= streams (Artists.song "B" 50).
Proof.
  apply (proj2 (proj2 (proj2 (largest_by_streams_top 1
           [Artists.song "A" 10; Artists.song "B" 50; Artists.song "C" 5])))).
  - vm_compute. left.
  - left.
  - vm_compute. intros H. apply list_elem_of_singleton in H. discriminate H.
Defined.

(** ** Keys and modes (lines 325-333) *)

Lemma pair_eqb_eq x y : pair_eqb x y = true <-> x = y.
Proof.
  destruct x as [a b], y as [c d]. unfold pair_eqb. simpl.
  rewrite andb_true_iff, !String.eqb_eq. split; [intros [-> ->]; done|].
  by intros [= -> ->].
Qed.

Lemma key_mode_label_Some r k m :
  key_mode_label r = Some (k, m) <-> key r = Some k /\ mode r = Some m.
Proof.
  unfold key_mode_label. destruct (key r), (mode r); simpl; split;
    try done; try (intros [? ?]; done).
  - by intros [= -> ->].
  - by intros [[= ->] [= ->]].
Qed.

Lemma key_mode_label_None r :
  key_mode_label r = None <-> key r = None \/ mode r = None.
Proof.
  unfold key_mode_label. destruct (key r), (mode r); simpl; split;
    try done; try tauto; intros [?|?]; done.
Qed.

Lemma sort_by_nil {A} (before : A -> A -> bool) l :
  sort_by before l = [] <-> l = [].
Proof.
  split; [|by intros ->]. intros E.
  apply (f_equal length) in E. rewrite sort_by_length in E.
  by destruct l.
Qed.

(** X27: the sunburst chart of keys and modes gives way to its warning
    exactly when every row of the view lacks a key or a mode; otherwise
    every pair of key and mode that occurs has one entry, with the number
    of rows of that pair, and the entries add up to the number of rows
    that have both. *)
Theorem key_mode_groups view :
  (key_mode_chart view = inr key_mode_warning
   <-> Forall (fun r => key r = None \/ mode r = None) view)
  /\ (forall k m c, ((k, m), c) ∈ key_mode_df view
        <-> 0 < c
            /\ c = Z.of_nat
                 (length (filter (fun r => key r = Some k /\ mode r = Some m)
                            view)))
  /\ NoDup (key_mode_df view).*1
  /\ Zsum (key_mode_df view).*2
     = Z.of_nat (length (filter (fun r => key r <> None /\ mode r <> None)
                           view)).
Proof.
  unfold key_mode_chart, key_mode_df. split; [|split; [|split]].
  - transitivity (tally_with pair_eqb key_mode_label
                    (fun _ old => default 0 old + 1) view = []).
    + rewrite <- (sort_by_nil (fun a b => pair_leb a.1 b.1)).
      destruct (sort_by _ _); split; done.
    + rewrite (count_tally_nil pair_eqb pair_eqb_eq key_mode_label).
      apply Forall_proper; [|done]. intros r. apply key_mode_label_None.
  - intros k m c. rewrite elem_of_sort_by.
    rewrite (elem_of_count_tally pair_eqb pair_eqb_eq key_mode_label).
    assert (filter (fun r => key_mode_label r = Some (k, m)) view
            = filter (fun r => key r = Some k /\ mode r = Some m) view) as ->;
      [|done].
    apply list_filter_iff. intros r. apply key_mode_label_Some.
  - rewrite sort_by_Permutation.
    apply tally_with_labels_NoDup, pair_eqb_eq.
  - rewrite (Zsum_Permutation _
               (tally_with pair_eqb key_mode_label
                  (fun _ old => default 0 old + 1) view).*2)
      by by rewrite sort_by_Permutation.
    rewrite (count_tally_sum pair_eqb key_mode_label). f_equal.
    induction view as [|r rows IH]; [done|].
    rewrite filter_cons. cbn [omap list_omap]. fold (omap key_mode_label rows).
    destruct (decide (key r <> None /\ mode r <> None)) as [[K M]|D].
    + destruct (key_mode_label r) eqn:L.
      * simpl. by rewrite IH.
      * apply key_mode_label_None in L as [?|?]; done.
    + destruct (key_mode_label r) as [[k m]|] eqn:L; [|done].
      apply key_mode_label_Some in L as [L1 L2].
      exfalso. apply D. by rewrite L1, L2.
Qed.

(** ** The metrics at the start *)

(** X28: on a table whose percentages all lie between 0 and 100 the row
    of metrics under the initial selection is not the warning: it shows
    the number of rows, the number of distinct artist strings and the sum
    of streams of the whole table. *)
Theorem initial_metrics df s :
  Widgets.initial_selection df = Some s ->
  Forall percentages_in_range df ->
  metrics_row s df
  = [ metric "Total Lagu" (Z.of_nat (length df));
      metric "Artis Unik" (Z.of_nat (total_artists df));
      metric "Total Streaming" (total_streams df) ].
Proof.
  intros E P.
  assert (V : filtered_df s df = df).
  { destruct (initial_selection_base df s E) as (K & M & D & En & Va & B).
    rewrite filtered_df_row_mask. apply filter_all.
    rewrite Forall_forall in B, P. apply Forall_forall. intros r In.
    unfold row_mask. rewrite K, M, !categorical_mask_Semua, (B r In).
    simpl. apply advanced_mask_percentages; auto. }
  unfold metrics_row. rewrite V.
  destruct df as [|r df]; [discriminate E|]. reflexivity.
Qed.

Lemma initial_metrics_witness :
  exists s, Widgets.initial_selection Scenario.table = Some s
    /\ metrics_row s Scenario.table
       = [ metric "Total Lagu" 5;
           metric "Artis Unik" (Z.of_nat (total_artists Scenario.table));
           metric "Total Streaming" (total_streams Scenario.table) ].
Proof.
  eexists. split; [reflexivity|].
  apply (initial_metrics Scenario.table _ eq_refl).
  repeat constructor; simpl; lia.
Defined.

(** ** The order of the loaded table *)

Lemma drop_duplicates_from_sublist {A} `{EqDecision A} (seen l : list A) :
  drop_duplicates_from seen l `sublist_of` l.
Proof.
  revert seen. induction l as [|x l IH]; intros seen; simpl; [constructor|].
  destruct (decide (x ∈ seen)).
  - apply sublist_cons, IH.
  - apply sublist_skip, IH.
Qed.

Section LoaderOrder.
Context {float64 : Type}.
Variable to_numeric : string -> option float64.
Variable astype_int64 : float64 -> option Z.
Variable to_datetime : Z -> Z -> Z -> option date.

Lemma coerce_streams_sublist raws :
  (coerce_streams to_numeric raws).*1 `sublist_of` raws.
Proof.
  unfold coerce_streams. induction raws as [|raw raws IH]; [constructor|].
  cbn [omap list_omap].
  fold (omap (fun raw => pair raw <$> to_numeric (raw_streams raw)) raws).
  destruct (to_numeric (raw_streams raw)); simpl.
  - by apply sublist_skip.
  - by apply sublist_cons.
Qed.

Lemma typed_rows_names (rows : list (raw_track * float64)) (typed : list track) :
  Forall2 (fun x y => typed_row astype_int64 to_datetime x = Some y) rows typed ->
  track_name <$> typed = raw_track_name <$> rows.*1.
Proof.
  induction 1 as [|x y rows typed T _ IH]; [done|].
  rewrite !fmap_cons, IH. f_equal.
  by apply (typed_row_columns astype_int64 to_datetime) in T as [-> _].
Qed.

(** X29: the loader keeps the order of the file: the track names of the
    table it returns, read from top to bottom, are a subsequence of the
    track names of the file's records. *)
Theorem loaded_table_in_file_order read_csv path raws df :
  read_csv path = Some raws ->
  load_data to_numeric astype_int64 to_datetime read_csv path = Loaded df ->
  track_name <$> df `sublist_of` raw_track_name <$> raws.
Proof.
  intros F L.
  apply (load_data_Loaded to_numeric astype_int64 to_datetime) in L
    as (raws' & F' & N).
  assert (raws' = raws) as -> by congruence.
  apply (normalize_Some to_numeric astype_int64 to_datetime) in N
    as (rows & M & _ & ->).
  apply mapM_Some, typed_rows_names in M.
  transitivity (track_name <$> rows).
  - apply fmap_sublist, drop_duplicates_from_sublist.
  - rewrite M. apply fmap_sublist, coerce_streams_sublist.
Qed.
End LoaderOrder.

Lemma loaded_table_in_file_order_witness :
  track_name <$> [Files.loaded "first" 141381703; Files.loaded "third" 133716286]
    `sublist_of` raw_track_name <$> Files.with_text_in_streams.
Proof.
  apply (loaded_table_in_file_order int_literal int_astype calendar_date
           (Files.disk Files.with_text_in_streams) Files.path
           Files.with_text_in_streams).
  - reflexivity.
  - reflexivity.
Defined.
